(** * Policy managers of maro.rl.training.policy_manager

    A shallow embedding of [AbsPolicyManager], [LocalPolicyManager],
    [MultiProcessPolicyManager] and [MultiNodePolicyManager]
    (maro/rl/training/policy_manager/policy_manager.py) and of the part of
    [AbsCorePolicy] (maro/rl/policy/policy.py) they call.

    Python objects are mutable; every operation is therefore a function from
    the state before the call to the state after it together with an
    [outcome].  The state after a call that raises is the state at the raise:
    Python does not roll anything back. *)

From stdpp Require Import base gmap sets list strings.
From Stdlib Require Import ZArith Lia.

(** ** Exceptions and outcomes *)

(** The exception classes that occur.  [KeyError] is what a failed dictionary
    subscript raises, [ValueError] is raised by [AbsPolicyManager.__init__],
    [AttributeError] by a call of a method a class does not have.
    [ConfigurationError] is the error class the specification names; no
    statement of the source raises it. *)
Inductive exn : Type :=
  | KeyError (key : string)
  | ValueError (msg : string)
  | AttributeError (attr : string)
  | ConfigurationError (msg : string).

(** A call returns, raises, or blocks for ever ([conn.recv()] on a pipe nobody
    writes to has no timeout). *)
Inductive outcome (A : Type) : Type :=
  | Ok (a : A)
  | Raise (e : exn)
  | Hang.
Arguments Ok {A} a.
Arguments Raise {A} e.
Arguments Hang {A}.

Definition is_Ok {A} (r : outcome A) : bool :=
  match r with Ok _ => true | _ => false end.

(** ** Insertion-ordered dictionaries

    A Python [dict] that the code iterates over is a list of items in
    insertion order: [d[k] = v] overwrites in place when [k] is present and
    appends otherwise. *)
Section Dict.
Context {V : Type}.

Fixpoint dict_get (k : string) (d : list (string * V)) : option V :=
  match d with
  | [] => None
  | (k', v) :: rest => if decide (k = k') then Some v else dict_get k rest
  end.

Fixpoint dict_set (k : string) (v : V) (d : list (string * V))
  : list (string * V) :=
  match d with
  | [] => [(k, v)]
  | (k', v') :: rest =>
      if decide (k = k') then (k', v) :: rest
      else (k', v') :: dict_set k v rest
  end.

Definition dict_keys (d : list (string * V)) : list string := d.*1.
Definition dict_values (d : list (string * V)) : list V := d.*2.
End Dict.

(** [d[k]] on a [defaultdict(factory)]: a missing key is inserted with the
    factory's value, and that value is the result. *)
Definition defaultdict_get {V} (dflt : V) (k : string) (d : list (string * V))
  : V * list (string * V) :=
  match dict_get k d with
  | Some v => (v, d)
  | None => (dflt, dict_set k dflt d)
  end.

Section Model.
(** [ExperienceSet] and the state of a policy are opaque to the managers. *)
Context {ExperienceSet PolicyState : Type}.

(** ** Policies (maro/rl/policy/policy.py) *)

(** A policy object.  [is_core] is [isinstance(policy, AbsCorePolicy)].
    [get_state], [set_state] are abstract in [AbsCorePolicy] and documented
    to correspond to each other: the policy carries a [state].  The
    [on_experiences] method the managers call comes from the concrete
    subclass; it is the field [learn], from the current state and the
    experiences to the new state and the returned truth value. *)
Record Policy : Type := mkPolicy {
  name : string;
  is_core : bool;
  state : PolicyState;
  learn : PolicyState → ExperienceSet → PolicyState * bool
}.

Definition policy_get_state (p : Policy) : PolicyState := state p.

Definition policy_set_state (p : Policy) (s : PolicyState) : Policy :=
  {| name := name p; is_core := is_core p; state := s; learn := learn p |}.

Definition policy_on_experiences (p : Policy) (exp : ExperienceSet)
  : Policy * bool :=
  let '(s, changed) := learn p (state p) exp in (policy_set_state p s, changed).

(** ** Messages, events and the world outside the manager *)

(** What travels to a trainer: the dictionaries [{"type": "train",
    "experiences": ...}] and [{"type": "quit"}] of the pipes, the
    [MsgTag.INIT_POLICY_STATE], [MsgTag.TRAIN] and [MsgTag.EXIT] session
    messages of the proxy. *)
Inductive message : Type :=
  | InitPolicyState (states : list (string * PolicyState))
  | Train (experiences : list (string * ExperienceSet))
  | Quit.

(** [result["policy"]], [reply.body[MsgKey.POLICY_STATE]]. *)
Definition reply : Type := list (string * PolicyState).

(** The observable effects, in the order they happen. *)
Inductive event : Type :=
  | EvUpdate (policy_name : string) (changed : bool)
      (* a policy's [on_experiences] returned [changed] *)
  | EvSpawn (trainer_id : string)          (* [Process(...).start()] *)
  | EvProxy (group : string)               (* [Proxy(group, ...)] *)
  | EvClose (group : string)               (* [proxy.close()] *)
  | EvSend (trainer_id : string) (msg : message).

(** A trainer: a child process or a remote node. *)
Record Worker : Type := mkWorker {
  alive : bool;
  replicas : gmap string Policy;
  outbox : list reply      (* replies written and not yet received *)
}.

Record World : Type := mkWorld {
  procs : list Worker;            (* child processes, in spawn order *)
  peers : gmap string Worker;     (* remote trainer nodes, by name *)
  proxies : list string;          (* groups with an open proxy *)
  trace : list event
}.

Definition log (evs : list event) (w : World) : World :=
  {| procs := procs w; peers := peers w; proxies := proxies w;
     trace := trace w ++ evs |}.

Definition set_procs (ps : list Worker) (w : World) : World :=
  {| procs := ps; peers := peers w; proxies := proxies w; trace := trace w |}.

Definition set_peers (ps : gmap string Worker) (w : World) : World :=
  {| procs := procs w; peers := ps; proxies := proxies w; trace := trace w |}.

Definition set_proxies (gs : list string) (w : World) : World :=
  {| procs := procs w; peers := peers w; proxies := gs; trace := trace w |}.

(** ** The trainer worker *)

(** Modelled from the spec: the loop of [trainer_process]
    (maro/rl/training/policy_manager/trainer.py is not among the sources),
    section 4.5: on [TRAIN], for each policy id present in the command,
    apply the attached experience batch via that policy's update method;
    if it reports a change, include its new state in the reply map.  A
    policy id the worker does not own ends the worker without a reply.
    The result is the replicas, the reply, the events, and whether the
    worker got through the whole command. *)
Fixpoint worker_train (pols : gmap string Policy)
    (exps : list (string * ExperienceSet)) (rep : reply) (evs : list event)
  : gmap string Policy * reply * list event * bool :=
  match exps with
  | [] => (pols, rep, evs, true)
  | (n, exp) :: rest =>
      match pols !! n with
      | None => (pols, rep, evs, false)
      | Some p =>
          let '(p', changed) := policy_on_experiences p exp in
          worker_train (<[n := p']> pols) rest
            (if changed then dict_set n (policy_get_state p') rep else rep)
            (evs ++ [EvUpdate n changed])
      end
  end.

(** Modelled from the spec: the worker's side of [INIT_POLICY_STATE]
    (section 4.4, 6): the states of the policies the worker owns are
    installed; an id it does not own ends the worker. *)
Fixpoint worker_init (pols : gmap string Policy)
    (states : list (string * PolicyState)) : gmap string Policy * bool :=
  match states with
  | [] => (pols, true)
  | (n, s) :: rest =>
      match pols !! n with
      | None => (pols, false)
      | Some p => worker_init (<[n := policy_set_state p s]> pols) rest
      end
  end.

(** Modelled from the spec: what a live trainer does with the experiences
    of a [TRAIN] command (section 4.5): the reply, or no reply when the
    worker ended on the way.  A worker that has ended consumes nothing. *)
Definition worker_apply (wk : Worker) (exps : list (string * ExperienceSet))
  : Worker * list event * option reply :=
  if alive wk then
    let '(pols, rep, evs, ok) := worker_train (replicas wk) exps [] [] in
    if ok then (mkWorker true pols (outbox wk), evs, Some rep)
    else (mkWorker false pols (outbox wk), evs, None)
  else (wk, [], None).

(** Modelled from the spec: one turn of the trainer's state machine
    (section 4.5).  [TRAIN] is answered with one reply, written to the
    worker's end of the channel; [QUIT]/[EXIT] ends the worker without
    reply. *)
Definition worker_handle (wk : Worker) (msg : message)
  : Worker * list event :=
  match msg with
  | Train exps =>
      let '(wk', evs, orep) := worker_apply wk exps in
      match orep with
      | Some rep =>
          (mkWorker (alive wk') (replicas wk') (outbox wk' ++ [rep]), evs)
      | None => (wk', evs)
      end
  | InitPolicyState states =>
      if alive wk then
        let '(pols, ok) := worker_init (replicas wk) states in
        (mkWorker ok pols (outbox wk), [])
      else (wk, [])
  | Quit => (mkWorker false (replicas wk) (outbox wk), [])
  end.

(** ** AbsPolicyManager *)

Record AbsPolicyManager : Type := mkAbs {
  policy_dict : gmap string Policy;
  updated : gset string;
  _version : Z
}.

(** The message of the [ValueError] of [__init__]. *)
Definition not_core_msg : string :=
  "Only 'AbsCorePolicy' instances can be managed by a policy manager.".

(** [for policy in policies: if not isinstance(policy, AbsCorePolicy):
    raise ValueError(...)] *)
Fixpoint check_policies (policies : list Policy) : outcome unit :=
  match policies with
  | [] => Ok ()
  | policy :: rest =>
      if is_core policy then check_policies rest
      else Raise (ValueError not_core_msg)
  end.

(** [{policy.name: policy for policy in policies}] *)
Definition make_policy_dict (policies : list Policy) : gmap string Policy :=
  foldl (λ d policy, <[name policy := policy]> d) ∅ policies.

Definition abs_init (policies : list Policy) : outcome AbsPolicyManager :=
  match check_policies policies with
  | Ok _ =>
      let d := make_policy_dict policies in
      Ok {| policy_dict := d; updated := dom d; _version := 0 |}
  | Raise e => Raise e
  | Hang => Hang
  end.

Definition version (m : AbsPolicyManager) : Z := _version m.

(** [{name: self.policy_dict[name].get_state() for name in self.updated}].
    The set is visited in some order; [elements] fixes one. *)
Fixpoint collect_states (d : gmap string Policy) (names : list string)
    (acc : gmap string PolicyState) : outcome (gmap string PolicyState) :=
  match names with
  | [] => Ok acc
  | n :: rest =>
      match d !! n with
      | None => Raise (KeyError n)
      | Some p => collect_states d rest (<[n := policy_get_state p]> acc)
      end
  end.

Definition abs_get_state (m : AbsPolicyManager)
  : outcome (gmap string PolicyState) :=
  collect_states (policy_dict m) (elements (updated m)) ∅.

(** [self.updated.clear()] *)
Definition abs_reset_update_status (m : AbsPolicyManager) : AbsPolicyManager :=
  {| policy_dict := policy_dict m; updated := ∅; _version := _version m |}.

Definition set_policy (n : string) (p : Policy) (m : AbsPolicyManager)
  : AbsPolicyManager :=
  {| policy_dict := <[n := p]> (policy_dict m); updated := updated m;
     _version := _version m |}.

Definition add_updated (n : string) (m : AbsPolicyManager)
  : AbsPolicyManager :=
  {| policy_dict := policy_dict m; updated := {[n]} ∪ updated m;
     _version := _version m |}.

(** [if self.updated: self._version += 1] *)
Definition bump_version (m : AbsPolicyManager) : AbsPolicyManager :=
  if decide (updated m = ∅) then m
  else {| policy_dict := policy_dict m; updated := updated m;
          _version := (_version m + 1)%Z |}.

(** ** LocalPolicyManager *)

(** [__init__] adds a logger and a counter nothing reads; the state is the
    base class's. *)
Definition local_init (policies : list Policy) : outcome AbsPolicyManager :=
  abs_init policies.

(** The loop of [LocalPolicyManager.on_experiences]. *)
Fixpoint local_loop (items : list (string * ExperienceSet))
    (m : AbsPolicyManager) (evs : list event)
  : AbsPolicyManager * list event * outcome unit :=
  match items with
  | [] => (m, evs, Ok ())
  | (policy_name, exp) :: rest =>
      match policy_dict m !! policy_name with
      | None => (m, evs, Raise (KeyError policy_name))
      | Some p =>
          if is_core p then
            let '(p', changed) := policy_on_experiences p exp in
            let m1 := set_policy policy_name p' m in
            let m2 := if changed then add_updated policy_name m1 else m1 in
            local_loop rest m2 (evs ++ [EvUpdate policy_name changed])
          else local_loop rest m evs
      end
  end.

(** After the loop only the logger is called ([if self.updated:
    self._logger.info(...)]); [_version] is not assigned. *)
Definition local_on_experiences (m : AbsPolicyManager) (w : World)
    (exp_by_policy : list (string * ExperienceSet))
  : AbsPolicyManager * World * outcome unit :=
  let '(m', evs, r) := local_loop exp_by_policy m [] in
  (m', log evs w, r).

(** ** Shared by the two distributed managers *)

(** [{name: d[name] for name in names}] for a dictionary [d] given by its
    subscript: the first missing name raises [KeyError]. *)
Fixpoint pick {V} (d : string → option V) (names : list string)
    (acc : list (string * V)) : outcome (list (string * V)) :=
  match names with
  | [] => Ok acc
  | n :: rest =>
      match d n with
      | None => Raise (KeyError n)
      | Some v => pick d rest (dict_set n v acc)
      end
  end.

(** [self._trainer2policies = defaultdict(list)] filled by
    [for policy_name, trainer_id in policy2trainer.items():
       self._trainer2policies[trainer_id].append(policy_name)]. *)
Definition group_by_trainer (policy2trainer : list (string * string))
  : list (string * list string) :=
  foldl (λ t2p item,
           let '(names, t2p') := defaultdict_get [] item.2 t2p in
           dict_set item.2 (names ++ [item.1]) t2p')
        [] policy2trainer.

(** The loop over [result["policy"].items()]: [set_state] on the canonical
    policy, then [self.updated.add]. *)
Fixpoint merge_reply (rep : reply) (m : AbsPolicyManager)
  : AbsPolicyManager * outcome unit :=
  match rep with
  | [] => (m, Ok ())
  | (policy_name, policy_state) :: rest =>
      match policy_dict m !! policy_name with
      | None => (m, Raise (KeyError policy_name))
      | Some p =>
          merge_reply rest
            (add_updated policy_name
               (set_policy policy_name (policy_set_state p policy_state) m))
      end
  end.

(** ** MultiProcessPolicyManager *)

(** A connection is the index of the process at its other end. *)
Record MultiProcessPolicyManager : Type := mkMP {
  mp_base : AbsPolicyManager;
  mp_policy2trainer : list (string * string);
  mp_trainer2policies : list (string * list string);
  mp_trainer_processes : list nat;
  mp_manager_end : list (string * nat)
}.

(** Modelled from the spec: the start of a trainer process (section 4.3):
    it is handed the policy ids it owns, a factory for each and their
    initial state; it builds each policy and installs the state. *)
Definition start_worker (funcs : list (string * (string → Policy)))
    (states : list (string * PolicyState)) : Worker :=
  let pols := foldl (λ d item, <[item.1 := item.2 item.1]> d) ∅ funcs in
  let '(pols', ok) := worker_init pols states in
  mkWorker ok pols' [].

(** The loop [for trainer_id, policy_names in self._trainer2policies.items()]
    of [__init__].  The two dictionary comprehensions are evaluated before
    [Process(...)]; inside the loop [self._trainer2policies[trainer_id]] is
    [policy_names]. *)
Fixpoint mp_spawn (items : list (string * list string))
    (d : gmap string Policy) (funcs : gmap string (string → Policy))
    (trainer_processes : list nat) (manager_end : list (string * nat))
    (w : World) : World * outcome (list nat * list (string * nat)) :=
  match items with
  | [] => (w, Ok (trainer_processes, manager_end))
  | (trainer_id, policy_names) :: rest =>
      let conn := length (procs w) in
      match pick (λ n, funcs !! n) policy_names [] with
      | Ok fs =>
          match pick (λ n, policy_get_state <$> d !! n) policy_names [] with
          | Ok states =>
              mp_spawn rest d funcs (trainer_processes ++ [conn])
                (dict_set trainer_id conn manager_end)
                (log [EvSpawn trainer_id]
                   (set_procs (procs w ++ [start_worker fs states]) w))
          | Raise e => (w, Raise e)
          | Hang => (w, Hang)
          end
      | Raise e => (w, Raise e)
      | Hang => (w, Hang)
      end
  end.

Definition mp_init (policies : list Policy)
    (policy2trainer : list (string * string))
    (create_policy_func_dict : gmap string (string → Policy)) (w : World)
  : World * outcome MultiProcessPolicyManager :=
  match abs_init policies with
  | Ok b =>
      let t2p := group_by_trainer policy2trainer in
      match mp_spawn t2p (policy_dict b) create_policy_func_dict [] [] w with
      | (w', Ok (ps, ends)) => (w', Ok (mkMP b policy2trainer t2p ps ends))
      | (w', Raise e) => (w', Raise e)
      | (w', Hang) => (w', Hang)
      end
  | Raise e => (w, Raise e)
  | Hang => (w, Hang)
  end.

(** [conn.send(msg)]: the process at the other end takes its turn. *)
Definition conn_send (conn : nat) (trainer_id : string) (msg : message)
    (w : World) : World :=
  match procs w !! conn with
  | Some wk =>
      let '(wk', evs) := worker_handle wk msg in
      log (EvSend trainer_id msg :: evs)
          (set_procs (<[conn := wk']> (procs w)) w)
  | None => log [EvSend trainer_id msg] w
  end.

(** [conn.recv()]: the oldest reply not yet received; with none the call
    blocks. *)
Definition conn_recv (conn : nat) (w : World) : World * outcome reply :=
  match procs w !! conn with
  | Some wk =>
      match outbox wk with
      | rep :: rest =>
          (set_procs
             (<[conn := mkWorker (alive wk) (replicas wk) rest]> (procs w)) w,
           Ok rep)
      | [] => (w, Hang)
      end
  | None => (w, Hang)
  end.

(** The first loop of [on_experiences]: [for trainer_id, conn in
    self._manager_end.items(): conn.send({"type": "train", "experiences":
    {name: exp_by_policy[name] for name in
    self._trainer2policies[trainer_id]}})]. *)
Fixpoint mp_send_all (ends : list (string * nat))
    (t2p : list (string * list string))
    (exp_by_policy : list (string * ExperienceSet)) (w : World)
  : list (string * list string) * World * outcome unit :=
  match ends with
  | [] => (t2p, w, Ok ())
  | (trainer_id, conn) :: rest =>
      let '(names, t2p') := defaultdict_get [] trainer_id t2p in
      match pick (λ n, dict_get n exp_by_policy) names [] with
      | Ok exps =>
          mp_send_all rest t2p' exp_by_policy
            (conn_send conn trainer_id (Train exps) w)
      | Raise e => (t2p', w, Raise e)
      | Hang => (t2p', w, Hang)
      end
  end.

(** The second loop: [for conn in self._manager_end.values():
    result = conn.recv(); ...]. *)
Fixpoint mp_recv_all (conns : list nat) (m : AbsPolicyManager) (w : World)
  : AbsPolicyManager * World * outcome unit :=
  match conns with
  | [] => (m, w, Ok ())
  | conn :: rest =>
      match conn_recv conn w with
      | (w', Ok rep) =>
          match merge_reply rep m with
          | (m', Ok _) => mp_recv_all rest m' w'
          | (m', r) => (m', w', r)
          end
      | (w', Raise e) => (m, w', Raise e)
      | (w', Hang) => (m, w', Hang)
      end
  end.

Definition mp_with (b : AbsPolicyManager) (t2p : list (string * list string))
    (m : MultiProcessPolicyManager) : MultiProcessPolicyManager :=
  mkMP b (mp_policy2trainer m) t2p (mp_trainer_processes m) (mp_manager_end m).

Definition mp_on_experiences (m : MultiProcessPolicyManager) (w : World)
    (exp_by_policy : list (string * ExperienceSet))
  : MultiProcessPolicyManager * World * outcome unit :=
  let '(t2p, w1, r1) :=
    mp_send_all (mp_manager_end m) (mp_trainer2policies m) exp_by_policy w in
  match r1 with
  | Ok _ =>
      let '(b, w2, r2) :=
        mp_recv_all (dict_values (mp_manager_end m)) (mp_base m) w1 in
      match r2 with
      | Ok _ => (mp_with (bump_version b) t2p m, w2, Ok ())
      | _ => (mp_with b t2p m, w2, r2)
      end
  | _ => (mp_with (mp_base m) t2p m, w1, r1)
  end.

(** [for conn in self._manager_end.values(): conn.send({"type": "quit"})] *)
Definition mp_exit (m : MultiProcessPolicyManager) (w : World) : World :=
  foldl (λ w' item, conn_send item.2 item.1 Quit w') w (mp_manager_end m).

(** ** MultiNodePolicyManager *)

Record MultiNodePolicyManager : Type := mkMN {
  mn_base : AbsPolicyManager;
  mn_policy2trainer : list (string * string);
  mn_trainer2policies : list (string * list string);
  mn_proxy : string          (* the group of [self._proxy] *)
}.

(** Modelled from the spec: [Proxy.send], the unicast of section 4.4
    (maro.communication is not among the sources): the named peer takes
    its turn; a name nobody answers to loses the message. *)
Definition proxy_send (peer : string) (msg : message) (w : World) : World :=
  match peers w !! peer with
  | Some wk =>
      let '(wk', evs) := worker_handle wk msg in
      log (EvSend peer msg :: evs) (set_peers (<[peer := wk']> (peers w)) w)
  | None => log [EvSend peer msg] w
  end.

(** Modelled from the spec: [Proxy.scatter] (section 4.4): send N distinct
    payloads to N distinct peers and block until exactly N replies are
    collected, matched by peer.  [complete] records that every peer so far
    has replied; a peer that does not reply leaves the call blocked. *)
Fixpoint scatter (dests : list (string * list (string * ExperienceSet)))
    (w : World) (replies : list reply) (complete : bool)
  : World * outcome (list reply) :=
  match dests with
  | [] => (w, if complete then Ok replies else Hang)
  | (peer, exps) :: rest =>
      match peers w !! peer with
      | Some wk =>
          let '(wk', evs, orep) := worker_apply wk exps in
          let w' := log (EvSend peer (Train exps) :: evs)
                        (set_peers (<[peer := wk']> (peers w)) w) in
          match orep with
          | Some rep => scatter rest w' (replies ++ [rep]) complete
          | None => scatter rest w' replies false
          end
      | None => scatter rest (log [EvSend peer (Train exps)] w) replies false
      end
  end.

(** The loop [for trainer_name, policy_names in
    self._trainer2policies.items(): self._proxy.send(...)] of [__init__]. *)
Fixpoint mn_push_states (items : list (string * list string))
    (d : gmap string Policy) (w : World) : World * outcome unit :=
  match items with
  | [] => (w, Ok ())
  | (trainer_name, policy_names) :: rest =>
      match pick (λ n, policy_get_state <$> d !! n) policy_names [] with
      | Ok states =>
          mn_push_states rest d
            (proxy_send trainer_name (InitPolicyState states) w)
      | Raise e => (w, Raise e)
      | Hang => (w, Hang)
      end
  end.

(** Modelled from the spec: [Proxy(group, ...)] opens the transport handle
    that [close] releases (section 4.4). *)
Definition proxy_open (group : string) (w : World) : World :=
  log [EvProxy group] (set_proxies (proxies w ++ [group]) w).

Definition proxy_close (group : string) (w : World) : World :=
  log [EvClose group]
      (set_proxies (filter (λ g, g ≠ group) (proxies w)) w).

Definition mn_init (policies : list Policy)
    (policy2trainer : list (string * string)) (group : string) (w : World)
  : World * outcome MultiNodePolicyManager :=
  match abs_init policies with
  | Ok b =>
      let t2p := group_by_trainer policy2trainer in
      match mn_push_states t2p (policy_dict b) (proxy_open group w) with
      | (w', Ok _) => (w', Ok (mkMN b policy2trainer t2p group))
      | (w', Raise e) => (w', Raise e)
      | (w', Hang) => (w', Hang)
      end
  | Raise e => (w, Raise e)
  | Hang => (w, Hang)
  end.

(** The first loop of [on_experiences]: [msg_body_by_dest], a
    [defaultdict(dict)] from trainer id to the experiences for it. *)
Fixpoint mn_partition (items : list (string * ExperienceSet))
    (policy2trainer : list (string * string))
    (msg_body_by_dest : list (string * list (string * ExperienceSet)))
  : outcome (list (string * list (string * ExperienceSet))) :=
  match items with
  | [] => Ok msg_body_by_dest
  | (policy_name, exp) :: rest =>
      match dict_get policy_name policy2trainer with
      | None => Raise (KeyError policy_name)
      | Some trainer_id =>
          let '(body, by_dest) :=
            defaultdict_get [] trainer_id msg_body_by_dest in
          mn_partition rest policy2trainer
            (dict_set trainer_id (dict_set policy_name exp body) by_dest)
      end
  end.

(** The loop over the replies of the scatter. *)
Fixpoint merge_replies (reps : list reply) (m : AbsPolicyManager)
  : AbsPolicyManager * outcome unit :=
  match reps with
  | [] => (m, Ok ())
  | rep :: rest =>
      match merge_reply rep m with
      | (m', Ok _) => merge_replies rest m'
      | (m', r) => (m', r)
      end
  end.

Definition mn_with (b : AbsPolicyManager) (m : MultiNodePolicyManager)
  : MultiNodePolicyManager :=
  mkMN b (mn_policy2trainer m) (mn_trainer2policies m) (mn_proxy m).

Definition mn_on_experiences (m : MultiNodePolicyManager) (w : World)
    (exp_by_policy : list (string * ExperienceSet))
  : MultiNodePolicyManager * World * outcome unit :=
  match mn_partition exp_by_policy (mn_policy2trainer m) [] with
  | Ok msg_body_by_dest =>
      match scatter msg_body_by_dest w [] true with
      | (w', Ok reps) =>
          match merge_replies reps (mn_base m) with
          | (b, Ok _) => (mn_with (bump_version b) m, w', Ok ())
          | (b, r) => (mn_with b m, w', r)
          end
      | (w', Raise e) => (m, w', Raise e)
      | (w', Hang) => (m, w', Hang)
      end
  | Raise e => (m, w, Raise e)
  | Hang => (m, w, Hang)
  end.

(** [self._proxy.ibroadcast("trainer", MsgTag.EXIT, ...)] then
    [self._proxy.close()].  Modelled from the spec: the broadcast reaches
    the trainer peers of the manager, with no reply (section 4.4). *)
Definition mn_exit (m : MultiNodePolicyManager) (w : World) : World :=
  proxy_close (mn_proxy m)
    (foldl (λ w' trainer, proxy_send trainer Quit w') w
           (dict_keys (mn_trainer2policies m))).

(** ** The three managers behind one contract *)

Inductive Manager : Type :=
  | Local (m : AbsPolicyManager)
  | MultiProcess (m : MultiProcessPolicyManager)
  | MultiNode (m : MultiNodePolicyManager).

Definition base (m : Manager) : AbsPolicyManager :=
  match m with
  | Local b => b
  | MultiProcess mp => mp_base mp
  | MultiNode mn => mn_base mn
  end.

Definition with_base (b : AbsPolicyManager) (m : Manager) : Manager :=
  match m with
  | Local _ => Local b
  | MultiProcess mp => MultiProcess (mp_with b (mp_trainer2policies mp) mp)
  | MultiNode mn => MultiNode (mn_with b mn)
  end.

(** The arguments of the three constructors. *)
Inductive ctor_args : Type :=
  | LocalArgs (policies : list Policy)
  | MultiProcessArgs (policies : list Policy)
      (policy2trainer : list (string * string))
      (create_policy_func_dict : gmap string (string → Policy))
  | MultiNodeArgs (policies : list Policy)
      (policy2trainer : list (string * string)) (group : string).

Definition policies_of (a : ctor_args) : list Policy :=
  match a with
  | LocalArgs ps | MultiProcessArgs ps _ _ | MultiNodeArgs ps _ _ => ps
  end.

Definition with_policies (ps : list Policy) (a : ctor_args) : ctor_args :=
  match a with
  | LocalArgs _ => LocalArgs ps
  | MultiProcessArgs _ p2t fs => MultiProcessArgs ps p2t fs
  | MultiNodeArgs _ p2t g => MultiNodeArgs ps p2t g
  end.

Definition omap_outcome {A B} (f : A → B) (r : outcome A) : outcome B :=
  match r with Ok a => Ok (f a) | Raise e => Raise e | Hang => Hang end.

Definition construct (a : ctor_args) (w : World) : World * outcome Manager :=
  match a with
  | LocalArgs ps => (w, omap_outcome Local (local_init ps))
  | MultiProcessArgs ps p2t fs =>
      let '(w', r) := mp_init ps p2t fs w in (w', omap_outcome MultiProcess r)
  | MultiNodeArgs ps p2t g =>
      let '(w', r) := mn_init ps p2t g w in (w', omap_outcome MultiNode r)
  end.

Definition on_experiences (m : Manager) (w : World)
    (exp_by_policy : list (string * ExperienceSet))
  : Manager * World * outcome unit :=
  match m with
  | Local b =>
      let '(b', w', r) := local_on_experiences b w exp_by_policy in
      (Local b', w', r)
  | MultiProcess mp =>
      let '(mp', w', r) := mp_on_experiences mp w exp_by_policy in
      (MultiProcess mp', w', r)
  | MultiNode mn =>
      let '(mn', w', r) := mn_on_experiences mn w exp_by_policy in
      (MultiNode mn', w', r)
  end.

Definition get_state (m : Manager) : outcome (gmap string PolicyState) :=
  abs_get_state (base m).

Definition reset_update_status (m : Manager) : Manager :=
  with_base (abs_reset_update_status (base m)) m.

(** [LocalPolicyManager] has no [exit]. *)
Definition exit (m : Manager) (w : World) : World * outcome unit :=
  match m with
  | Local _ => (w, Raise (AttributeError "exit"))
  | MultiProcess mp => (mp_exit mp w, Ok ())
  | MultiNode mn => (mn_exit mn w, Ok ())
  end.

(** The calls a client can make on a manager, and a run of them.  A client
    may catch an exception and go on; it cannot go on after a call that
    never returns. *)
Inductive call : Type :=
  | CallOnExperiences (exp_by_policy : list (string * ExperienceSet))
  | CallGetState
  | CallResetUpdateStatus
  | CallExit.

Definition step (c : call) (m : Manager) (w : World)
  : Manager * World * bool :=
  match c with
  | CallOnExperiences batch =>
      let '(m', w', r) := on_experiences m w batch in
      (m', w', match r with Hang => false | _ => true end)
  | CallGetState =>
      (m, w, match get_state m with Hang => false | _ => true end)
  | CallResetUpdateStatus => (reset_update_status m, w, true)
  | CallExit =>
      let '(w', r) := exit m w in
      (m, w', match r with Hang => false | _ => true end)
  end.

Fixpoint run (cs : list call) (m : Manager) (w : World) : Manager * World :=
  match cs with
  | [] => (m, w)
  | c :: rest =>
      let '(m', w', returned) := step c m w in
      if returned then run rest m' w' else (m', w')
  end.

(** ** Vocabulary of the statements *)

(** The events of a call: what the trace gained from [w] to [w']. *)
Definition new_events (w w' : World) : list event :=
  drop (length (trace w)) (trace w').

(** Some policy's update reported a change. *)
Definition reports_change (evs : list event) : Prop :=
  ∃ n, EvUpdate n true ∈ evs.

(** Every policy's update reported no change. *)
Definition reports_no_change (evs : list event) : Prop :=
  ∀ n, EvUpdate n true ∉ evs.

(** The trainers a [TRAIN] command was sent to. *)
Fixpoint train_targets (evs : list event) : list string :=
  match evs with
  | [] => []
  | EvSend t (Train _) :: rest => t :: train_targets rest
  | _ :: rest => train_targets rest
  end.

(** No reply is waiting in a pipe: every reply a trainer process wrote has
    been received.  This is so after construction and after every call that
    returned. *)
Definition no_pending (w : World) : Prop :=
  Forall (λ wk, outbox wk = []) (procs w).

(** Every reply waiting in a pipe is empty. *)
Definition quiet (w : World) : Prop :=
  Forall (λ wk, Forall (λ rep : reply, rep = []) (outbox wk)) (procs w).

(** [on_experiences] of the two distributed managers ends with
    [if self.updated: self._version += 1]; the local one has no such
    statement. *)
Definition has_version_test (m : Manager) : bool :=
  match m with Local _ => false | _ => true end.

(** What [if self.updated: self._version += 1] makes of a version. *)
Definition bumped (b : AbsPolicyManager) : Z :=
  if decide (updated b = ∅) then _version b else (_version b + 1)%Z.

End Model.

(** * A concrete system

    The scenario of the specification's section 8: policies [A], [B], [C],
    trainer [T1] owning [A] and [B], trainer [T2] owning [C].  Experiences and
    policy states are numbers; [A] learns from every batch, [B] and [C]
    never change. *)
Module Scenario.

Definition learner (n : string) : @Policy nat nat :=
  mkPolicy n true 0 (λ s exp, (s + exp, true)).

Definition idler (n : string) : @Policy nat nat :=
  mkPolicy n true 0 (λ s exp, (s, false)).

(** A policy that is not an [AbsCorePolicy], like [NullPolicy]. *)
Definition null_policy (n : string) : @Policy nat nat :=
  mkPolicy n false 0 (λ s exp, (s, false)).

Definition policies : list (@Policy nat nat) :=
  [learner "A"; idler "B"; idler "C"].

Definition policy2trainer : list (string * string) :=
  [("A", "T1"); ("B", "T1"); ("C", "T2")].

Definition create_policy_func_dict : gmap string (string → @Policy nat nat) :=
  <["A" := learner]> (<["B" := idler]> (<["C" := idler]> ∅)).

(** Nothing runs yet. *)
Definition empty_world : @World nat nat := mkWorld [] ∅ [] [].

(** Two remote trainer nodes are up, each with its policies. *)
Definition cluster : @World nat nat :=
  mkWorld []
    (<["T1" := mkWorker true (<["A" := learner "A"]> (<["B" := idler "B"]> ∅)) []]>
       (<["T2" := mkWorker true (<["C" := idler "C"]> ∅) []]> ∅))
    [] [].

(** The state [AbsPolicyManager.__init__] leaves. *)
Definition fresh_base : @AbsPolicyManager nat nat :=
  mkAbs (make_policy_dict policies) (dom (make_policy_dict policies)) 0.

Definition local_fresh : @Manager nat nat := Local fresh_base.

Definition mp_fresh : @Manager nat nat :=
  MultiProcess
    (mkMP fresh_base policy2trainer (group_by_trainer policy2trainer)
          [0; 1] [("T1", 0); ("T2", 1)]).

Definition mp_world : @World nat nat :=
  (construct (MultiProcessArgs policies policy2trainer create_policy_func_dict)
             empty_world).1.

Definition mn_fresh : @Manager nat nat :=
  MultiNode
    (mkMN fresh_base policy2trainer (group_by_trainer policy2trainer) "group").

Definition mn_world : @World nat nat :=
  (construct (MultiNodeArgs policies policy2trainer "group") cluster).1.

End Scenario.

(** * Vocabulary of the further properties *)

Section Vocabulary.
Context {ExperienceSet PolicyState : Type}.

(** What the update of one batch entry makes of the policy stored under its
    name: a policy that is not an [AbsCorePolicy] is skipped. *)
Definition trained (p : @Policy ExperienceSet PolicyState)
    (exp : ExperienceSet) : Policy * bool :=
  if is_core p then policy_on_experiences p exp else (p, false).

End Vocabulary.

(** * Properties *)

Section Properties.
Context {ExperienceSet PolicyState : Type}.
Implicit Types (p : @Policy ExperienceSet PolicyState).
Implicit Types (b : @AbsPolicyManager ExperienceSet PolicyState).
Implicit Types (m : @Manager ExperienceSet PolicyState).
Implicit Types (w : @World ExperienceSet PolicyState).
Implicit Types (batch : list (string * ExperienceSet)).

(** ** Dictionaries *)

Lemma dict_get_None {V} (k : string) (d : list (string * V)) :
  dict_get k d = None ↔ k ∉ dict_keys d.
Proof.
  unfold dict_keys. induction d as [|[k' v] d IH]; simpl.
  - split; [intros _; apply not_elem_of_nil | done].
  - rewrite not_elem_of_cons. destruct (decide (k = k')); naive_solver.
Qed.

Lemma dict_get_is_Some {V} (k : string) (d : list (string * V)) :
  is_Some (dict_get k d) ↔ k ∈ dict_keys d.
Proof.
  pose proof (dict_get_None k d) as H.
  destruct (dict_get k d) as [v|] eqn:E.
  - split; [|by eauto]. intros _.
    destruct (decide (k ∈ dict_keys d)) as [|Hn]; [done|].
    by apply H in Hn.
  - split; [by intros [? ?]|]. intros Hin. by destruct (proj1 H eq_refl).
Qed.

Lemma dict_get_Some_elem {V} (k : string) (v : V) (d : list (string * V)) :
  dict_get k d = Some v → (k, v) ∈ d.
Proof.
  induction d as [|[k' v'] d IH]; simpl; [done|].
  destruct (decide (k = k')) as [->|]; intros H.
  - injection H as ->. apply list_elem_of_here.
  - apply list_elem_of_further. auto.
Qed.

Lemma dict_set_keys {V} (k : string) (v : V) (d : list (string * V)) :
  ∀ k', k' ∈ dict_keys (dict_set k v d) ↔ k' = k ∨ k' ∈ dict_keys d.
Proof.
  unfold dict_keys. induction d as [|[k0 v0] d IH]; intros k'; simpl.
  - rewrite list_elem_of_singleton. set_solver.
  - destruct (decide (k = k0)) as [->|]; simpl.
    + rewrite !elem_of_cons. naive_solver.
    + rewrite !elem_of_cons, IH. naive_solver.
Qed.

Lemma dict_set_elem {V} (k : string) (v : V) (d : list (string * V)) kv :
  kv ∈ dict_set k v d → kv = (k, v) ∨ kv ∈ d.
Proof.
  induction d as [|[k0 v0] d IH]; simpl.
  - rewrite list_elem_of_singleton. auto.
  - destruct (decide (k = k0)) as [->|]; rewrite !elem_of_cons; naive_solver.
Qed.

Lemma dict_set_idem {V} (k : string) (v v0 : V) (d : list (string * V)) :
  dict_set k v (dict_set k v0 d) = dict_set k v d.
Proof.
  induction d as [|[k' v'] d IH]; simpl.
  - by rewrite decide_True.
  - destruct (decide (k = k')) as [->|Hne]; simpl.
    + by rewrite decide_True.
    + by rewrite decide_False, IH.
Qed.

Lemma dict_set_nonempty {V} (k : string) (v : V) (d : list (string * V)) :
  dict_set k v d ≠ [].
Proof. destruct d as [|[k' v'] d]; simpl; [done|]. by destruct (decide _). Qed.

(** ** Construction *)

Lemma check_policies_core (ps : list (@Policy ExperienceSet PolicyState)) :
  Forall (λ p, is_core p = true) ps → check_policies ps = Ok ().
Proof. induction 1 as [|p ps Hp _ IH]; simpl; [done|]. by rewrite Hp. Qed.

Lemma check_policies_not_core (ps : list (@Policy ExperienceSet PolicyState)) p :
  p ∈ ps → is_core p = false →
  check_policies ps = Raise (ValueError not_core_msg).
Proof.
  induction ps as [|q ps IH]; [by intros ?%elem_of_nil|].
  intros [->|Hin]%elem_of_cons Hp; simpl.
  - by rewrite Hp.
  - destruct (is_core q); [auto | done].
Qed.

Lemma check_policies_Ok_inv (ps : list (@Policy ExperienceSet PolicyState)) u :
  check_policies ps = Ok u → Forall (λ p, is_core p = true) ps.
Proof.
  induction ps as [|q ps IH]; simpl; [constructor|].
  destruct (is_core q) eqn:Hq; [|done]. intros H. constructor; auto.
Qed.

Lemma foldl_insert_dom (ps : list (@Policy ExperienceSet PolicyState))
    (acc : gmap string Policy) :
  dom (foldl (λ d policy, <[name policy := policy]> d) acc ps)
  = list_to_set (name <$> ps) ∪ dom acc.
Proof.
  revert acc. induction ps as [|q ps IH]; intros acc; simpl.
  - set_solver.
  - rewrite IH, dom_insert_L. set_solver.
Qed.

Lemma make_policy_dict_dom (ps : list (@Policy ExperienceSet PolicyState)) :
  dom (make_policy_dict ps) = list_to_set (name <$> ps).
Proof. unfold make_policy_dict. rewrite foldl_insert_dom. set_solver. Qed.

Lemma foldl_insert_notin (ps : list (@Policy ExperienceSet PolicyState))
    (acc : gmap string Policy) n :
  n ∉ name <$> ps →
  foldl (λ d policy, <[name policy := policy]> d) acc ps !! n = acc !! n.
Proof.
  revert acc. induction ps as [|q ps IH]; intros acc; simpl; [done|].
  rewrite not_elem_of_cons. intros [Hne Hn].
  rewrite IH by done. by rewrite lookup_insert_ne.
Qed.

(** The policy stored under a name is the last one supplied with it. *)
Lemma make_policy_dict_last (l l3 : list (@Policy ExperienceSet PolicyState)) p :
  name p ∉ name <$> l3 →
  make_policy_dict (l ++ p :: l3) !! name p = Some p.
Proof.
  intros Hn. unfold make_policy_dict. rewrite foldl_app. simpl.
  rewrite foldl_insert_notin by done. apply lookup_insert_eq.
Qed.

Lemma foldl_insert_shadow (l2 l3 : list (@Policy ExperienceSet PolicyState))
    (acc : gmap string Policy) p1 p2 :
  name p1 = name p2 →
  foldl (λ d policy, <[name policy := policy]> d)
        (<[name p1 := p1]> acc) (l2 ++ p2 :: l3)
  = foldl (λ d policy, <[name policy := policy]> d) acc (l2 ++ p2 :: l3).
Proof.
  intros Heq. revert acc. induction l2 as [|q l2 IH]; intros acc; simpl.
  - by rewrite Heq, insert_insert_eq.
  - destruct (decide (name q = name p1)) as [E|E].
    + by rewrite E, insert_insert_eq.
    + rewrite insert_insert_ne by done. apply IH.
Qed.

(** An earlier policy with the name of a later one leaves no mark. *)
Lemma make_policy_dict_shadow (l1 l2 l3 : list (@Policy ExperienceSet PolicyState))
    p1 p2 :
  name p1 = name p2 →
  make_policy_dict (l1 ++ p1 :: l2 ++ p2 :: l3)
  = make_policy_dict (l1 ++ l2 ++ p2 :: l3).
Proof.
  intros Heq. unfold make_policy_dict.
  rewrite (foldl_app _ l1 (p1 :: l2 ++ p2 :: l3)), (foldl_app _ l1 (l2 ++ p2 :: l3)).
  simpl. by apply foldl_insert_shadow.
Qed.

Lemma abs_init_Ok (ps : list (@Policy ExperienceSet PolicyState)) b :
  abs_init ps = Ok b →
  policy_dict b = make_policy_dict ps ∧
  updated b = list_to_set (name <$> ps) ∧ _version b = 0%Z.
Proof.
  unfold abs_init. destruct (check_policies ps); [|done..].
  intros [= <-]. simpl. by rewrite make_policy_dict_dom.
Qed.

Lemma abs_init_core (ps : list (@Policy ExperienceSet PolicyState)) :
  Forall (λ p, is_core p = true) ps →
  abs_init ps = Ok (mkAbs (make_policy_dict ps) (dom (make_policy_dict ps)) 0).
Proof. intros H. unfold abs_init. by rewrite check_policies_core. Qed.

Lemma abs_init_not_core (ps : list (@Policy ExperienceSet PolicyState)) p :
  p ∈ ps → is_core p = false →
  abs_init ps = Raise (ValueError not_core_msg).
Proof.
  intros Hin Hp. unfold abs_init.
  by rewrite (check_policies_not_core ps p Hin Hp).
Qed.

(** The base part of a constructed manager is what [abs_init] made. *)
Lemma construct_Ok_base (a : @ctor_args ExperienceSet PolicyState) w w' m :
  construct a w = (w', Ok m) → abs_init (policies_of a) = Ok (base m).
Proof.
  destruct a as [ps|ps p2t fs|ps p2t g]; simpl.
  - unfold local_init. destruct (abs_init ps); simpl; [|done..].
    by intros [= _ <-].
  - unfold mp_init. destruct (abs_init ps) as [b| |]; simpl; [|done..].
    destruct (mp_spawn _ _ _ _ _ _) as [w1 [[ps' ends]| |]]; simpl; [|done..].
    by intros [= _ <-].
  - unfold mn_init. destruct (abs_init ps) as [b| |]; simpl; [|done..].
    destruct (mn_push_states _ _ _) as [w1 [[]| |]]; simpl; [|done..].
    by intros [= _ <-].
Qed.

(** ** The pieces of [on_experiences] *)

Lemma new_events_app w w' delta :
  trace w' = trace w ++ delta → new_events w w' = delta.
Proof. intros H. unfold new_events. rewrite H. apply drop_app_length. Qed.

Lemma bump_version_spec b :
  policy_dict (bump_version b) = policy_dict b ∧
  updated (bump_version b) = updated b ∧
  _version (bump_version b) = bumped b.
Proof. unfold bump_version, bumped. by destruct (decide (updated b = ∅)). Qed.

Lemma bumped_cases b :
  bumped b = _version b ∨ bumped b = (_version b + 1)%Z.
Proof. unfold bumped. destruct (decide _); auto. Qed.

(** The loop of the local manager: it never assigns the version, never
    blocks, only adds to [updated], and adds only names whose update
    reported a change. *)
Lemma local_loop_spec batch : ∀ b evs b' evs' r,
  local_loop batch b evs = (b', evs', r) →
  _version b' = _version b ∧
  dom (policy_dict b') = dom (policy_dict b) ∧
  updated b ⊆ updated b' ∧
  r ≠ Hang ∧
  ∃ delta, evs' = evs ++ delta ∧
    (reports_no_change delta → updated b' = updated b).
Proof.
  induction batch as [|[n exp] rest IH]; intros b evs b' evs' r; simpl.
  - intros [= <- <- <-]. repeat split; try done.
    exists []. by rewrite app_nil_r.
  - destruct (policy_dict b !! n) as [p|] eqn:Hp.
    2:{ intros [= <- <- <-]. repeat split; try done.
        exists []. by rewrite app_nil_r. }
    destruct (is_core p); [|by apply IH].
    destruct (policy_on_experiences p exp) as [p' changed].
    intros H. apply IH in H as (Hv & Hd & Hu & Hr & delta & -> & Hq).
    assert (Hdom : dom (<[n:=p']> (policy_dict b)) = dom (policy_dict b)).
    { rewrite dom_insert_L. apply elem_of_dom_2 in Hp. set_solver. }
    split; [by destruct changed|].
    split; [destruct changed; simpl in *; congruence|].
    split; [destruct changed; simpl in *; set_solver|].
    split; [done|].
    exists (EvUpdate n changed :: delta). split; [by rewrite <- app_assoc|].
    intros Hno. destruct changed.
    + exfalso. apply (Hno n). apply list_elem_of_here.
    + rewrite Hq; [done|]. intros k Hk. apply (Hno k).
      by apply list_elem_of_further.
Qed.

(** The keys of the batch decide whether the local loop raises. *)
Lemma local_loop_outcome batch : ∀ b evs,
  (Forall (λ k, k ∈ dom (policy_dict b)) (dict_keys batch) ∧
   (local_loop batch b evs).2 = Ok ()) ∨
  (∃ k, k ∈ dict_keys batch ∧ (k ∉ dom (policy_dict b)) ∧
        (local_loop batch b evs).2 = Raise (KeyError k)).
Proof.
  unfold dict_keys.
  induction batch as [|[n exp] rest IH]; intros b evs; simpl.
  - left. by split.
  - destruct (policy_dict b !! n) as [p|] eqn:Hp.
    2:{ right. exists n. split; [apply list_elem_of_here|].
        split; [by apply not_elem_of_dom|done]. }
    assert (Hn : n ∈ dom (policy_dict b)) by by apply elem_of_dom_2 in Hp.
    assert (Hstep : ∀ b1 evs1, dom (policy_dict b1) = dom (policy_dict b) →
      (Forall (λ k, k ∈ dom (policy_dict b)) (n :: rest.*1) ∧
       (local_loop rest b1 evs1).2 = Ok ()) ∨
      (∃ k, k ∈ n :: rest.*1 ∧ (k ∉ dom (policy_dict b)) ∧
            (local_loop rest b1 evs1).2 = Raise (KeyError k))).
    { intros b1 evs1 Hd.
      destruct (IH b1 evs1) as [[HF Hr]|(k & Hk & Hkd & Hr)].
      - left. split; [|done]. constructor; [done|]. by rewrite <- Hd.
      - right. exists k. split; [by apply list_elem_of_further|].
        split; [by rewrite <- Hd|done]. }
    destruct (is_core p); [|by apply Hstep].
    destruct (policy_on_experiences p exp) as [p' changed].
    apply Hstep. destruct changed; simpl; rewrite dom_insert_L; set_solver.
Qed.

(** Merging one reply. *)
Lemma merge_reply_spec (rep : @reply PolicyState) : ∀ b b' r,
  merge_reply rep b = (b', r) →
  _version b' = _version b ∧
  dom (policy_dict b') = dom (policy_dict b) ∧
  updated b ⊆ updated b' ∧
  r ≠ Hang ∧
  updated b' ⊆ list_to_set (dict_keys rep) ∪ updated b ∧
  (r = Ok () → updated b' = list_to_set (dict_keys rep) ∪ updated b).
Proof.
  unfold dict_keys.
  induction rep as [|[n st] rest IH]; intros b b' r; simpl.
  - intros [= <- <-]. repeat split; try done; set_solver.
  - destruct (policy_dict b !! n) as [p|] eqn:Hp.
    2:{ intros [= <- <-]. repeat split; try done. set_solver. }
    intros H. apply IH in H as (Hv & Hd & Hu & Hr & Hsub & Hok). simpl in *.
    split; [done|]. split.
    { rewrite Hd, dom_insert_L. apply elem_of_dom_2 in Hp. set_solver. }
    split; [set_solver|]. split; [done|]. split; [set_solver|].
    intros Hr'. rewrite (Hok Hr'). set_solver.
Qed.

Lemma merge_reply_nil b : merge_reply [] b = (b, Ok ()).
Proof. done. Qed.

Lemma merge_replies_spec (reps : list (@reply PolicyState)) : ∀ b b' r,
  merge_replies reps b = (b', r) →
  _version b' = _version b ∧
  dom (policy_dict b') = dom (policy_dict b) ∧
  updated b ⊆ updated b' ∧
  r ≠ Hang ∧
  updated b' ⊆ list_to_set (concat (dict_keys <$> reps)) ∪ updated b ∧
  (r = Ok () →
   updated b' = list_to_set (concat (dict_keys <$> reps)) ∪ updated b).
Proof.
  induction reps as [|rep rest IH]; intros b b' r; simpl.
  - intros [= <- <-]. repeat split; try done; set_solver.
  - destruct (merge_reply rep b) as [b1 r1] eqn:H1.
    apply merge_reply_spec in H1 as (Hv1 & Hd1 & Hu1 & Hr1 & Hsub1 & Hok1).
    rewrite list_to_set_app_L.
    destruct r1 as [[]| |]; [| |done].
    + intros H. apply IH in H as (Hv & Hd & Hu & Hr & Hsub & Hok).
      split; [congruence|]. split; [congruence|].
      split; [set_solver|]. split; [done|]. split; [set_solver|].
      intros Hr'. rewrite (Hok Hr'), (Hok1 eq_refl). set_solver.
    + intros [= <- <-]. repeat split; try done. set_solver.
Qed.

(** The worker's loop: its events are the updates of policies named in the
    command, and the reply names exactly those whose update reported a
    change. *)
Lemma worker_train_spec (exps : list (string * ExperienceSet)) :
  ∀ (pols : gmap string (@Policy ExperienceSet PolicyState)) rep evs
    pols' rep' evs' ok,
  worker_train pols exps rep evs = (pols', rep', evs', ok) →
  ∃ delta, evs' = evs ++ delta ∧
    (∀ e, e ∈ delta → ∃ n c, e = EvUpdate n c ∧ n ∈ dict_keys exps) ∧
    (∀ n, n ∈ dict_keys rep' ↔ n ∈ dict_keys rep ∨ EvUpdate n true ∈ delta) ∧
    (reports_no_change delta → rep' = rep).
Proof.
  unfold dict_keys at 1.
  induction exps as [|[n exp] rest IH]; intros pols rep evs pols' rep' evs' ok;
    simpl.
  - intros [= <- <- <- <-]. exists []. rewrite app_nil_r.
    repeat split; try done; [by intros e ?%elem_of_nil|by left|].
    intros [|?%elem_of_nil]; done.
  - destruct (pols !! n) as [p|].
    2:{ intros [= <- <- <- <-]. exists []. rewrite app_nil_r.
        repeat split; try done; [by intros e ?%elem_of_nil|by left|].
        intros [|?%elem_of_nil]; done. }
    destruct (policy_on_experiences p exp) as [p' changed].
    intros H. apply IH in H as (delta & -> & He & Hk & Hq).
    exists (EvUpdate n changed :: delta).
    split; [by rewrite <- app_assoc|]. split; [|split].
    + intros e [->|Hin]%elem_of_cons.
      * exists n, changed. split; [done|apply list_elem_of_here].
      * destruct (He e Hin) as (n' & c & -> & Hn').
        exists n', c. split; [done|by apply list_elem_of_further].
    + intros k. rewrite Hk, elem_of_cons. destruct changed.
      * rewrite dict_set_keys. naive_solver.
      * naive_solver.
    + intros Hno. destruct changed.
      * exfalso. apply (Hno n). apply list_elem_of_here.
      * apply Hq. intros k Hk'. apply (Hno k). by apply list_elem_of_further.
Qed.

Lemma worker_apply_spec (wk : @Worker ExperienceSet PolicyState) exps wk' evs orep :
  worker_apply wk exps = (wk', evs, orep) →
  outbox wk' = outbox wk ∧
  (∀ e, e ∈ evs → ∃ n c, e = EvUpdate n c ∧ n ∈ dict_keys exps) ∧
  ∀ rep, orep = Some rep →
    (∀ n, n ∈ dict_keys rep ↔ EvUpdate n true ∈ evs) ∧
    (reports_no_change evs → rep = []).
Proof.
  unfold worker_apply. destruct (alive wk).
  - destruct (worker_train _ _ _ _) as [[[pols rep] evs1] ok] eqn:H.
    apply worker_train_spec in H as (delta & Hd & Ht & Hk & Hq).
    simpl in Hd. subst evs1.
    destruct ok; intros [= <- <- <-]; (split; [done|]); (split; [done|]);
      intros rep0 [= <-].
    split; [|done]. intros n. rewrite Hk. unfold dict_keys. simpl.
    split; [intros [?%elem_of_nil|]; done | auto].
  - intros [= <- <- <-]. split; [done|]. split; [by intros e ?%elem_of_nil|done].
Qed.

(** Events that are all updates contain no command. *)
Lemma updates_no_targets (evs : list (@event ExperienceSet PolicyState)) :
  (∀ e, e ∈ evs → ∃ n c, e = EvUpdate n c) → train_targets evs = [].
Proof.
  induction evs as [|e evs IH]; intros H; simpl; [done|].
  destruct (H e) as (n & c & ->); [apply list_elem_of_here|].
  apply IH. intros e' He'. apply H. by apply list_elem_of_further.
Qed.

Lemma reports_no_change_app (evs1 evs2 : list (@event ExperienceSet PolicyState)) :
  reports_no_change (evs1 ++ evs2) ↔
  reports_no_change evs1 ∧ reports_no_change evs2.
Proof.
  unfold reports_no_change. split.
  - intros H. split; intros n Hn; apply (H n), elem_of_app; auto.
  - intros [H1 H2] n [Hn|Hn]%elem_of_app; [by apply (H1 n)|by apply (H2 n)].
Qed.

Lemma reports_no_change_cons_other (e : @event ExperienceSet PolicyState) evs :
  (∀ n, e ≠ EvUpdate n true) →
  reports_no_change (e :: evs) ↔ reports_no_change evs.
Proof.
  intros He. unfold reports_no_change. split.
  - intros H n Hn. apply (H n). by apply list_elem_of_further.
  - intros H n [Hn|Hn]%elem_of_cons; [by apply (He n)|by apply (H n)].
Qed.

Lemma train_targets_app (evs1 evs2 : list (@event ExperienceSet PolicyState)) :
  train_targets (evs1 ++ evs2) = train_targets evs1 ++ train_targets evs2.
Proof.
  induction evs1 as [|e evs1 IH]; simpl; [done|].
  destruct e as [| | | |t []]; simpl; by rewrite ?IH.
Qed.

Lemma no_pending_quiet w : no_pending w → quiet w.
Proof.
  unfold no_pending, quiet. intros H. eapply Forall_impl; [exact H|].
  intros wk ->. constructor.
Qed.

(** *** The pipes of the multi-process manager *)

Lemma conn_send_train conn t exps w :
  ∃ evs,
    trace (conn_send conn t (Train exps) w)
      = trace w ++ EvSend t (Train exps) :: evs ∧
    (∀ e, e ∈ evs → ∃ n c, e = EvUpdate n c ∧ n ∈ dict_keys exps) ∧
    (quiet w → reports_no_change evs →
     quiet (conn_send conn t (Train exps) w)).
Proof.
  unfold conn_send. destruct (procs w !! conn) as [wk|] eqn:Hwk.
  2:{ exists []. split; [done|]. split; [by intros e ?%elem_of_nil|done]. }
  unfold worker_handle.
  destruct (worker_apply wk exps) as [[wk' evs] orep] eqn:Ha.
  apply worker_apply_spec in Ha as (Hout & Ht & Hrep).
  exists evs. destruct orep as [rep|]; simpl.
  - split; [done|]. split; [done|]. intros Hq Hno.
    destruct (Hrep rep eq_refl) as [_ Hnil]. unfold quiet. simpl.
    apply Forall_insert; [done|]. simpl. rewrite Hout.
    apply Forall_app. split.
    + by apply (Forall_lookup_1 _ _ _ _ Hq Hwk).
    + constructor; [auto|constructor].
  - split; [done|]. split; [done|]. intros Hq Hno. unfold quiet. simpl.
    apply Forall_insert; [done|]. rewrite Hout.
    by apply (Forall_lookup_1 _ _ _ _ Hq Hwk).
Qed.

Lemma pick_no_Hang {V} (d : string → option V) names : ∀ acc,
  pick d names acc ≠ Hang.
Proof.
  induction names as [|n names IH]; intros acc; simpl; [done|].
  destruct (d n); [apply IH|done].
Qed.

Lemma pick_Raise {V} (d : string → option V) names : ∀ acc e,
  pick d names acc = Raise e → ∃ k, e = KeyError k ∧ k ∈ names ∧ d k = None.
Proof.
  induction names as [|n names IH]; intros acc e; simpl; [done|].
  destruct (d n) eqn:Hn.
  - intros (k & -> & Hk & Hd)%IH. exists k.
    split; [done|]. split; [by apply list_elem_of_further|done].
  - intros [= <-]. exists n. split; [done|]. split; [apply list_elem_of_here|done].
Qed.

Lemma pick_Ok {V} (d : string → option V) names : ∀ acc res,
  pick d names acc = Ok res →
  Forall (λ n, is_Some (d n)) names ∧
  ∀ k, k ∈ dict_keys res ↔ k ∈ dict_keys acc ∨ k ∈ names.
Proof.
  induction names as [|n names IH]; intros acc res; simpl.
  - intros [= <-]. split; [constructor|]. intros k. rewrite elem_of_nil. tauto.
  - destruct (d n) as [v|] eqn:Hn; [|done].
    intros [HF Hk]%IH. split; [constructor; eauto|].
    intros k. rewrite Hk, dict_set_keys, elem_of_cons. tauto.
Qed.

Lemma mp_send_all_spec batch (ends : list (string * nat)) : ∀ t2p w t2p' w' r,
  mp_send_all ends t2p batch w = (t2p', w', r) →
  r ≠ Hang ∧
  (∀ e, r = Raise e → ∃ k, e = KeyError k ∧ k ∉ dict_keys batch) ∧
  ∃ delta, trace w' = trace w ++ delta ∧
    (r = Ok () → train_targets delta = dict_keys ends) ∧
    (∀ n c, EvUpdate n c ∈ delta → n ∈ dict_keys batch) ∧
    (quiet w → reports_no_change delta → quiet w').
Proof.
  unfold dict_keys at 2.
  induction ends as [|[t conn] rest IH]; intros t2p w t2p' w' r; simpl.
  - intros [= <- <- <-]. split; [done|]. split; [done|].
    exists []. rewrite app_nil_r. repeat split; try done.
    by intros n c ?%elem_of_nil.
  - destruct (defaultdict_get [] t t2p) as [names t2p1].
    destruct (pick _ names []) as [exps|e|] eqn:Hpick.
    + intros H. apply IH in H as (Hr & He & delta & Htr & Ht & Hup & Hq).
      destruct (conn_send_train conn t exps w) as (evs & Hs & Hev & Hqs).
      apply pick_Ok in Hpick as [Hnames Hkeys].
      split; [done|]. split; [done|].
      exists (EvSend t (Train exps) :: evs ++ delta).
      split; [rewrite Htr, Hs, <- app_assoc; by simpl|].
      split; [|split].
      * intros Hok. simpl. rewrite train_targets_app, (Ht Hok).
        rewrite updates_no_targets; [done|]. intros e He'.
        destruct (Hev e He') as (n & c & -> & _). eauto.
      * intros n c [|[Hin|Hin]%elem_of_app]%elem_of_cons; [done| |eauto].
        destruct (Hev _ Hin) as (n' & c' & [= <- <-] & Hn').
        apply Hkeys in Hn' as [?%elem_of_nil|Hn']; [done|].
        rewrite Forall_forall in Hnames. apply Hnames in Hn'.
        by apply dict_get_is_Some.
      * intros Hquiet Hno.
        apply reports_no_change_cons_other in Hno; [|done].
        apply reports_no_change_app in Hno as [Hno1 Hno2]. auto.
    + intros [= <- <- <-]. split; [done|].
      split. { intros e' [= <-]. apply pick_Raise in Hpick as (k & -> & _ & Hk).
               exists k. split; [done|]. by apply dict_get_None. }
      exists []. rewrite app_nil_r. repeat split; try done.
      by intros n c ?%elem_of_nil.
    + by apply pick_no_Hang in Hpick.
Qed.

Lemma conn_recv_spec conn w w' (r : outcome (@reply PolicyState)) :
  conn_recv conn w = (w', r) →
  trace w' = trace w ∧
  (∀ e, r ≠ Raise e) ∧
  (quiet w → quiet w' ∧ ∀ rep, r = Ok rep → rep = []).
Proof.
  unfold conn_recv. destruct (procs w !! conn) as [wk|] eqn:Hwk.
  2:{ intros [= <- <-]. by repeat split. }
  destruct (outbox wk) as [|rep rest] eqn:Hout.
  { intros [= <- <-]. by repeat split. }
  intros [= <- <-]. split; [done|]. split; [done|].
  intros Hq. pose proof (Forall_lookup_1 _ _ _ _ Hq Hwk) as Hwkq.
  simpl in Hwkq. rewrite Hout in Hwkq. apply Forall_cons in Hwkq as [Hrep Hrest].
  split.
  - unfold quiet. simpl. by apply Forall_insert.
  - by intros rep' [= <-].
Qed.

Lemma mp_recv_all_spec (conns : list nat) : ∀ b w b' w' r,
  mp_recv_all conns b w = (b', w', r) →
  _version b' = _version b ∧
  dom (policy_dict b') = dom (policy_dict b) ∧
  updated b ⊆ updated b' ∧
  trace w' = trace w ∧
  (quiet w → updated b' = updated b).
Proof.
  induction conns as [|conn rest IH]; intros b w b' w' r; simpl.
  - by intros [= <- <- <-].
  - destruct (conn_recv conn w) as [w1 r1] eqn:Hrecv.
    apply conn_recv_spec in Hrecv as (Htr & Hne & Hq).
    destruct r1 as [rep|e|].
    + destruct (merge_reply rep b) as [b1 r1] eqn:Hm.
      assert (Hrep : quiet w → b1 = b ∧ r1 = Ok ()).
      { intros Hquiet. destruct (Hq Hquiet) as [_ Hnil].
        rewrite (Hnil rep eq_refl) in Hm. simpl in Hm. by injection Hm. }
      apply merge_reply_spec in Hm as (Hv1 & Hd1 & Hu1 & Hr1 & _ & Hok1).
      destruct r1 as [[]| |].
      * intros H. apply IH in H as (Hv & Hd & Hu & Htr' & Hq').
        split; [congruence|]. split; [congruence|]. split; [set_solver|].
        split; [congruence|]. intros Hquiet.
        destruct (Hrep Hquiet) as [-> _]. apply Hq'. by apply Hq.
      * intros [= <- <- <-]. repeat split; try done.
        intros Hquiet. by destruct (Hrep Hquiet).
      * done.
    + by destruct (Hne e).
    + intros [= <- <- <-]. by repeat split.
Qed.

Lemma mp_on_experiences_spec (mp : @MultiProcessPolicyManager ExperienceSet PolicyState)
    w batch mp' w' r :
  mp_on_experiences mp w batch = (mp', w', r) →
  dom (policy_dict (mp_base mp')) = dom (policy_dict (mp_base mp)) ∧
  updated (mp_base mp) ⊆ updated (mp_base mp') ∧
  _version (mp_base mp') =
    (if is_Ok r then
       if decide (updated (mp_base mp') = ∅) then _version (mp_base mp)
       else (_version (mp_base mp) + 1)%Z
     else _version (mp_base mp)) ∧
  ∃ delta, trace w' = trace w ++ delta ∧
    (∀ n c, EvUpdate n c ∈ delta → n ∈ dict_keys batch) ∧
    (quiet w → reports_no_change delta →
     updated (mp_base mp') = updated (mp_base mp)).
Proof.
  unfold mp_on_experiences.
  destruct (mp_send_all _ _ _ _) as [[t2p w1] r1] eqn:Hs.
  apply mp_send_all_spec in Hs as (Hr1 & _ & delta & Htr & _ & Hup & Hq).
  destruct r1 as [[]|e|]; [| |done].
  - destruct (mp_recv_all _ _ _) as [[b w2] r2] eqn:Hrv.
    apply mp_recv_all_spec in Hrv as (Hv & Hd & Hu & Htr2 & Hq2).
    destruct (bump_version_spec b) as (Hbd & Hbu & Hbv).
    assert (Hdelta : trace w2 = trace w ++ delta) by congruence.
    destruct r2 as [[]|e|]; intros [= <- <- <-]; simpl.
    + rewrite Hbd, Hbu, Hbv. unfold bumped. rewrite Hv.
      repeat split; try done. exists delta. auto.
    + repeat split; try done. exists delta. auto.
    + repeat split; try done. exists delta. auto.
  - intros [= <- <- <-]. simpl. repeat split; try done.
    exists delta. repeat split; done.
Qed.

(** *** The scatter of the multi-node manager *)

Lemma scatter_incomplete (dests : list (string * list (string * ExperienceSet))) :
  ∀ w reps, (scatter dests w reps false).2 = Hang.
Proof.
  induction dests as [|[peer exps] rest IH]; intros w reps; simpl; [done|].
  destruct (peers w !! peer) as [wk|]; [|apply IH].
  destruct (worker_apply wk exps) as [[wk' evs] [rep|]]; apply IH.
Qed.

Lemma scatter_spec (dests : list (string * list (string * ExperienceSet))) :
  ∀ w reps complete w' r,
  scatter dests w reps complete = (w', r) →
  procs w' = procs w ∧
  (∀ e, r ≠ Raise e) ∧
  ∃ delta, trace w' = trace w ++ delta ∧
    train_targets delta = dict_keys dests ∧
    (∀ t msg, EvSend t msg ∈ delta →
       ∃ exps, msg = Train exps ∧ (t, exps) ∈ dests) ∧
    (∀ n c, EvUpdate n c ∈ delta →
       ∃ t exps, (t, exps) ∈ dests ∧ n ∈ dict_keys exps) ∧
    ∀ reps', r = Ok reps' →
      ∃ new, reps' = reps ++ new ∧
        ∀ n, n ∈ concat (dict_keys <$> new) ↔ EvUpdate n true ∈ delta.
Proof.
  unfold dict_keys at 1.
  induction dests as [|[peer exps] rest IH]; intros w reps complete w' r; simpl.
  - intros [= <- <-]. split; [done|]. split; [by destruct complete|].
    exists []. rewrite app_nil_r. split; [done|]. split; [done|].
    split; [by intros t msg ?%elem_of_nil|].
    split; [by intros n c ?%elem_of_nil|].
    intros reps' Hr. exists []. rewrite app_nil_r.
    split; [destruct complete; congruence|]. simpl. set_solver.
  - assert (Hstep : ∀ wk1 evs reps1 complete1,
      (∀ e, e ∈ evs → ∃ n c, e = EvUpdate n c ∧ n ∈ dict_keys exps) →
      scatter rest (log (EvSend peer (Train exps) :: evs) wk1) reps1 complete1
        = (w', r) →
      procs wk1 = procs w → trace wk1 = trace w →
      procs w' = procs w ∧ (∀ e, r ≠ Raise e) ∧
      ∃ delta, trace w' = trace w ++ EvSend peer (Train exps) :: evs ++ delta ∧
        train_targets (EvSend peer (Train exps) :: evs ++ delta)
          = peer :: rest.*1 ∧
        (∀ t msg, EvSend t msg ∈ EvSend peer (Train exps) :: evs ++ delta →
           ∃ exps0, msg = Train exps0 ∧ (t, exps0) ∈ (peer, exps) :: rest) ∧
        (∀ n c, EvUpdate n c ∈ EvSend peer (Train exps) :: evs ++ delta →
           ∃ t exps0, (t, exps0) ∈ (peer, exps) :: rest ∧ n ∈ dict_keys exps0) ∧
        ∀ reps', r = Ok reps' →
          ∃ new, reps' = reps1 ++ new ∧
            ∀ n, n ∈ concat (dict_keys <$> new) ↔ EvUpdate n true ∈ delta).
    { intros wk1 evs reps1 complete1 Hev H Hprocs Htrace.
      apply IH in H as (Hp & Hne & delta & Htr & Htt & Hsend & Hupd & Hok).
      split; [by rewrite Hp|]. split; [done|]. exists delta.
      split; [rewrite Htr; simpl; by rewrite Htrace, <- app_assoc|].
      split.
      { simpl. rewrite train_targets_app, Htt, updates_no_targets; [done|].
        intros e He. destruct (Hev e He) as (n & c & -> & _). eauto. }
      split.
      { intros t msg [[= -> ->]|[Hin|Hin]%elem_of_app]%elem_of_cons.
        - exists exps. split; [done|apply list_elem_of_here].
        - by destruct (Hev _ Hin) as (n & c & ? & _).
        - destruct (Hsend t msg Hin) as (exps0 & -> & Hd).
          exists exps0. split; [done|by apply list_elem_of_further]. }
      split; [|done].
      intros n c [|[Hin|Hin]%elem_of_app]%elem_of_cons; [done| |].
      - destruct (Hev _ Hin) as (n' & c' & [= <- <-] & Hn).
        exists peer, exps. split; [apply list_elem_of_here|done].
      - destruct (Hupd n c Hin) as (t & exps0 & Hd & Hn).
        exists t, exps0. split; [by apply list_elem_of_further|done]. }
    destruct (peers w !! peer) as [wk|].
    + destruct (worker_apply wk exps) as [[wk' evs] orep] eqn:Ha.
      apply worker_apply_spec in Ha as (_ & Hev & Hrep).
      destruct orep as [rep|].
      * intros H. apply Hstep in H as (Hp & Hne & delta & Htr & Htt & Hs & Hu & Hok);
          [|done..].
        split; [done|]. split; [done|].
        exists (EvSend peer (Train exps) :: evs ++ delta).
        split; [done|]. split; [done|]. split; [done|]. split; [done|].
        intros reps' Hr. destruct (Hok reps' Hr) as (new & -> & Hnew).
        exists (rep :: new). split; [by rewrite <- app_assoc|].
        intros n. simpl. rewrite elem_of_app, elem_of_cons, elem_of_app.
        destruct (Hrep rep eq_refl) as [Hk _].
        rewrite Hk, Hnew. naive_solver.
      * intros H. pose proof (scatter_incomplete rest
          (log (EvSend peer (Train exps) :: evs)
               (set_peers (<[peer:=wk']> (peers w)) w)) reps) as Hh.
        rewrite H in Hh. simpl in Hh. subst r.
        apply Hstep in H as (Hp & Hne & delta & Htr & Htt & Hs & Hu & Hok);
          [|done..].
        split; [done|]. split; [done|].
        exists (EvSend peer (Train exps) :: evs ++ delta).
        split; [done|]. split; [done|]. split; [done|]. split; [done|]. done.
    + intros H. pose proof (scatter_incomplete rest
          (log [EvSend peer (Train exps)] w) reps) as Hh.
      rewrite H in Hh. simpl in Hh. subst r.
      apply (Hstep w [] reps false) in H
        as (Hp & Hne & delta & Htr & Htt & Hs & Hu & Hok);
        [|by intros e ?%elem_of_nil|done..].
      split; [done|]. split; [done|].
      exists (EvSend peer (Train exps) :: delta).
      split; [done|]. split; [done|]. split; [done|]. split; [done|]. done.
Qed.

Lemma mn_partition_outcome batch (p2t : list (string * string)) : ∀ acc,
  mn_partition batch p2t acc ≠ Hang ∧
  ∀ e, mn_partition batch p2t acc = Raise e →
    ∃ k, e = KeyError k ∧ k ∈ dict_keys batch ∧ dict_get k p2t = None.
Proof.
  unfold dict_keys.
  induction batch as [|[n exp] rest IH]; intros acc; simpl; [done|].
  destruct (dict_get n p2t) as [t|] eqn:Hn.
  - destruct (defaultdict_get [] t acc) as [body by_dest].
    destruct (IH (dict_set t (dict_set n exp body) by_dest)) as [Hh He].
    split; [done|]. intros e (k & -> & Hk & Hd)%He.
    exists k. split; [done|]. split; [by apply list_elem_of_further|done].
  - split; [done|]. intros e [= <-]. exists n.
    split; [done|]. split; [apply list_elem_of_here|done].
Qed.

(** The partition of the multi-node manager: every destination has at least
    one entry, and its entries are entries of the batch for policies assigned
    to that trainer. *)
Lemma mn_partition_spec (B : list string) (p2t : list (string * string)) batch :
  ∀ acc dests,
  (∀ n, n ∈ dict_keys batch → n ∈ B) →
  (∀ t body, (t, body) ∈ acc →
     body ≠ [] ∧ ∀ n, n ∈ dict_keys body → n ∈ B ∧ dict_get n p2t = Some t) →
  mn_partition batch p2t acc = Ok dests →
  ∀ t body, (t, body) ∈ dests →
    body ≠ [] ∧ ∀ n, n ∈ dict_keys body → n ∈ B ∧ dict_get n p2t = Some t.
Proof.
  unfold dict_keys at 1.
  induction batch as [|[n exp] rest IH]; intros acc dests HB Hacc; simpl.
  - by intros [= <-].
  - destruct (dict_get n p2t) as [t|] eqn:Hn; [|done].
    destruct (defaultdict_get [] t acc) as [body by_dest] eqn:Hdd.
    apply IH.
    { intros k Hk. apply HB. by apply list_elem_of_further. }
    assert (Hnew : dict_set t (dict_set n exp body) by_dest
                   = dict_set t (dict_set n exp body) acc ∧
                   ∀ k, k ∈ dict_keys body → k ∈ B ∧ dict_get k p2t = Some t).
    { unfold defaultdict_get in Hdd.
      destruct (dict_get t acc) as [body0|] eqn:Ht; injection Hdd as <- <-.
      - split; [done|]. apply dict_get_Some_elem in Ht. by apply Hacc.
      - split; [apply dict_set_idem|]. by intros k ?%elem_of_nil. }
    destruct Hnew as [-> Hbody].
    intros t' body' [[= -> ->]|Hin]%dict_set_elem; [|by apply Hacc].
    split; [apply dict_set_nonempty|].
    intros k [->|Hk]%dict_set_keys; [|by apply Hbody].
    split; [apply HB, list_elem_of_here|done].
Qed.

Lemma mn_on_experiences_spec (mn : @MultiNodePolicyManager ExperienceSet PolicyState)
    w batch mn' w' r :
  mn_on_experiences mn w batch = (mn', w', r) →
  dom (policy_dict (mn_base mn')) = dom (policy_dict (mn_base mn)) ∧
  updated (mn_base mn) ⊆ updated (mn_base mn') ∧
  _version (mn_base mn') =
    (if is_Ok r then
       if decide (updated (mn_base mn') = ∅) then _version (mn_base mn)
       else (_version (mn_base mn) + 1)%Z
     else _version (mn_base mn)) ∧
  ∃ delta, trace w' = trace w ++ delta ∧
    (∀ n c, EvUpdate n c ∈ delta → n ∈ dict_keys batch) ∧
    (∀ t msg, EvSend t msg ∈ delta →
       ∃ exps, msg = Train exps ∧ exps ≠ [] ∧
         ∀ n, n ∈ dict_keys exps →
           n ∈ dict_keys batch ∧ dict_get n (mn_policy2trainer mn) = Some t) ∧
    (reports_no_change delta →
     updated (mn_base mn') = updated (mn_base mn)) ∧
    (r = Ok () → reports_change delta → updated (mn_base mn') ≠ ∅).
Proof.
  unfold mn_on_experiences.
  destruct (mn_partition batch (mn_policy2trainer mn) []) as [dests|e|] eqn:Hp.
  3:{ by destruct (mn_partition_outcome batch (mn_policy2trainer mn) []). }
  2:{ intros [= <- <- <-]. simpl. repeat split; try done.
      exists []. rewrite app_nil_r.
      repeat split; try done; by intros ? ? ?%elem_of_nil. }
  pose proof (mn_partition_spec (dict_keys batch) (mn_policy2trainer mn)
                batch [] dests (λ n H, H)) as Hgood.
  specialize (Hgood ltac:(by intros t body ?%elem_of_nil) Hp).
  destruct (scatter dests w [] true) as [w1 r1] eqn:Hs.
  apply scatter_spec in Hs as (_ & Hne & delta & Htr & _ & Hsend & Hupd & Hok).
  assert (Hevs : (∀ n c, EvUpdate n c ∈ delta → n ∈ dict_keys batch) ∧
    (∀ t msg, EvSend t msg ∈ delta →
       ∃ exps, msg = Train exps ∧ exps ≠ [] ∧
         ∀ n, n ∈ dict_keys exps →
           n ∈ dict_keys batch ∧ dict_get n (mn_policy2trainer mn) = Some t)).
  { split.
    - intros n c (t & exps & Hd & Hn)%Hupd.
      by destruct (Hgood t exps Hd) as [_ [? _]%(λ H, H n Hn)].
    - intros t msg (exps & -> & Hd)%Hsend. exists exps.
      split; [done|]. by apply Hgood. }
  destruct Hevs as [Hev1 Hev2].
  destruct r1 as [reps|e|]; [|by destruct (Hne e)|].
  2:{ intros [= <- <- <-]. simpl. repeat split; try done.
      exists delta. repeat split; done. }
  destruct (Hok reps eq_refl) as (new & Hnew & Hkeys). simpl in Hnew. subst new.
  destruct (merge_replies reps (mn_base mn)) as [b r2] eqn:Hm.
  apply merge_replies_spec in Hm as (Hv & Hd & Hu & Hr2 & Hsub & Hupd').
  destruct (bump_version_spec b) as (Hbd & Hbu & Hbv).
  assert (Hquiet : reports_no_change delta → updated b = updated (mn_base mn)).
  { intros Hno. apply (anti_symm (⊆)); [|done].
    intros n Hn. apply Hsub in Hn.
    apply elem_of_union in Hn as [Hn|Hn]; [|done].
    apply elem_of_list_to_set, Hkeys in Hn. by destruct (Hno n). }
  destruct r2 as [[]|e|]; intros [= <- <- <-]; simpl; [| |done].
  - rewrite Hbd, Hbu, Hbv. unfold bumped. rewrite Hv.
    repeat split; try done. exists delta. repeat split; try done.
    intros _ [n Hn]. rewrite (Hupd' eq_refl).
    apply Hkeys in Hn. set_solver.
  - repeat split; try done. exists delta. repeat split; done.
Qed.

Lemma collect_states_Ok (d : gmap string (@Policy ExperienceSet PolicyState))
    (names : list string) : ∀ acc,
  Forall (λ n, n ∈ dom d) names →
  ∃ res, collect_states d names acc = Ok res ∧
         dom res = list_to_set names ∪ dom acc.
Proof.
  induction names as [|n names IH]; intros acc HF; simpl.
  - exists acc. split; [done|]. set_solver.
  - apply Forall_cons in HF as [Hn HF].
    apply elem_of_dom in Hn as [p Hp]. rewrite Hp.
    destruct (IH (<[n:=policy_get_state p]> acc) HF) as (res & -> & Hd).
    exists res. split; [done|]. rewrite Hd, dom_insert_L. set_solver.
Qed.

Lemma base_with_base b m : base (with_base b m) = b.
Proof. by destruct m. Qed.

(** ** Claims about construction and the accessors *)

(** C6: right after construction, before any reset, the updated set is the
    set of all managed policy names (so it is not empty when policies were
    supplied) and [get_state] returns a mapping whose domain is every
    managed policy id. *)
Theorem updated_after_construction (a : @ctor_args ExperienceSet PolicyState)
    w w' m :
  construct a w = (w', Ok m) →
  updated (base m) = list_to_set (name <$> policies_of a) ∧
  updated (base m) = dom (policy_dict (base m)) ∧
  (policies_of a ≠ [] → updated (base m) ≠ ∅) ∧
  ∃ d, get_state m = Ok d ∧ dom d = list_to_set (name <$> policies_of a).
Proof.
  intros Hc. apply construct_Ok_base in Hc.
  apply abs_init_Ok in Hc as (Hd & Hu & _).
  split; [done|]. split; [by rewrite Hu, Hd, make_policy_dict_dom|].
  split.
  { destruct (policies_of a) as [|p ps]; [done|]. intros _.
    rewrite Hu. simpl. set_solver. }
  unfold get_state, abs_get_state.
  destruct (collect_states_Ok (policy_dict (base m))
              (elements (updated (base m))) ∅) as (res & Hres & Hdom).
  { apply Forall_forall. intros n Hn%elem_of_elements.
    by rewrite Hd, make_policy_dict_dom, <- Hu. }
  exists res. split; [done|].
  rewrite Hdom, list_to_set_elements_L, Hu, dom_empty_L. set_solver.
Qed.

(** C8: [reset_update_status] clears the updated set and leaves the version
    and the policy store as they were; [get_state] right after it returns
    the empty mapping. *)
Theorem reset_update_status_spec m :
  updated (base (reset_update_status m)) = ∅ ∧
  version (base (reset_update_status m)) = version (base m) ∧
  policy_dict (base (reset_update_status m)) = policy_dict (base m) ∧
  get_state (reset_update_status m) = Ok ∅.
Proof.
  unfold reset_update_status, get_state, abs_get_state.
  rewrite base_with_base. simpl. by rewrite elements_empty.
Qed.

(** C9, as the code has it: a policy that is not an [AbsCorePolicy] makes
    every constructor raise [ValueError], before anything outside the
    manager is touched: no process is spawned, no proxy opened, no message
    sent. *)
Theorem construct_not_core (a : @ctor_args ExperienceSet PolicyState) w p :
  p ∈ policies_of a → is_core p = false →
  construct a w = (w, Raise (ValueError not_core_msg)).
Proof.
  intros Hin Hp. pose proof (abs_init_not_core _ p Hin Hp) as H.
  destruct a as [ps|ps p2t fs|ps p2t g]; simpl in *.
  - unfold local_init. by rewrite H.
  - unfold mp_init. by rewrite H.
  - unfold mn_init. by rewrite H.
Qed.

Lemma construct_shadow (a : @ctor_args ExperienceSet PolicyState) w ps ps' :
  abs_init ps = abs_init ps' →
  construct (with_policies ps a) w = construct (with_policies ps' a) w.
Proof.
  intros H. destruct a as [qs|qs p2t fs|qs p2t g]; simpl.
  - unfold local_init. by rewrite H.
  - unfold mp_init. by rewrite H.
  - unfold mn_init. by rewrite H.
Qed.

Lemma with_policies_id (a : @ctor_args ExperienceSet PolicyState) :
  with_policies (policies_of a) a = a.
Proof. by destruct a. Qed.

(** C10: two trainable policies with the same name do not make construction
    fail: the base constructor returns, the store maps the name to the
    later policy, and every constructor does exactly what it does when the
    earlier policy is left out of the list. *)
Theorem duplicate_name_later_wins (a : @ctor_args ExperienceSet PolicyState) w
    l1 p1 l2 p2 l3 :
  policies_of a = l1 ++ p1 :: l2 ++ p2 :: l3 →
  Forall (λ p, is_core p = true) (policies_of a) →
  name p1 = name p2 →
  name p2 ∉ name <$> l3 →
  (∃ b, abs_init (policies_of a) = Ok b ∧
        policy_dict b !! name p1 = Some p2) ∧
  (∃ m, construct (LocalArgs (policies_of a)) w = (w, Ok m) ∧
        policy_dict (base m) !! name p1 = Some p2) ∧
  construct a w = construct (with_policies (l1 ++ l2 ++ p2 :: l3) a) w ∧
  (∀ w' m, construct a w = (w', Ok m) →
           policy_dict (base m) !! name p1 = Some p2).
Proof.
  intros Hps Hcore Heq Hlast.
  assert (Hlook : make_policy_dict (policies_of a) !! name p1 = Some p2).
  { rewrite Hps, Heq.
    replace (l1 ++ p1 :: l2 ++ p2 :: l3) with ((l1 ++ p1 :: l2) ++ p2 :: l3)
      by by rewrite <- app_assoc.
    by apply make_policy_dict_last. }
  pose proof (abs_init_core _ Hcore) as Hinit.
  split; [eexists; split; [exact Hinit|done]|].
  split.
  { simpl. unfold local_init. rewrite Hinit. simpl.
    eexists; split; [done|done]. }
  split.
  { rewrite <- (with_policies_id a) at 1. apply construct_shadow.
    rewrite Hinit, Hps.
    rewrite abs_init_core.
    - by rewrite (make_policy_dict_shadow l1 l2 l3 p1 p2 Heq).
    - rewrite Hps in Hcore.
      apply Forall_app in Hcore as [H1 Hcore].
      apply Forall_cons in Hcore as [_ Hcore].
      apply Forall_app. by split. }
  intros w' m Hc. apply construct_Ok_base in Hc.
  apply abs_init_Ok in Hc as (-> & _). done.
Qed.

(** ** Claims about [on_experiences] *)

Lemma local_loop_updates batch : ∀ b evs b' evs' r,
  local_loop batch b evs = (b', evs', r) →
  ∃ delta, evs' = evs ++ delta ∧
    ∀ n c, EvUpdate n c ∈ delta → n ∈ dict_keys batch.
Proof.
  unfold dict_keys.
  induction batch as [|[n exp] rest IH]; intros b evs b' evs' r; simpl.
  - intros [= <- <- <-]. exists []. rewrite app_nil_r.
    split; [done|]. by intros ? ? ?%elem_of_nil.
  - destruct (policy_dict b !! n) as [p|].
    2:{ intros [= <- <- <-]. exists []. rewrite app_nil_r.
        split; [done|]. by intros ? ? ?%elem_of_nil. }
    destruct (is_core p).
    + destruct (policy_on_experiences p exp) as [p' changed].
      intros (delta & -> & Hd)%IH. exists (EvUpdate n changed :: delta).
      split; [by rewrite <- app_assoc|].
      intros k c [[= -> ->]|Hin]%elem_of_cons; [apply list_elem_of_here|].
      apply list_elem_of_further. eauto.
    + intros (delta & -> & Hd)%IH. exists delta. split; [done|].
      intros k c Hin. apply list_elem_of_further. eauto.
Qed.

(** The local manager never assigns its version. *)
Lemma local_version_constant b w batch :
  _version (local_on_experiences b w batch).1.1 = _version b.
Proof.
  unfold local_on_experiences.
  destruct (local_loop batch b []) as [[b' evs] r] eqn:H.
  by apply local_loop_spec in H as (Hv & _).
Qed.

(** What one call of [on_experiences] does to the state of any manager. *)
Lemma on_experiences_spec m w batch m' w' r :
  on_experiences m w batch = (m', w', r) →
  dom (policy_dict (base m')) = dom (policy_dict (base m)) ∧
  updated (base m) ⊆ updated (base m') ∧
  _version (base m') =
    (if has_version_test m && is_Ok r then
       if decide (updated (base m') = ∅) then _version (base m)
       else (_version (base m) + 1)%Z
     else _version (base m)) ∧
  (∀ n c, EvUpdate n c ∈ new_events w w' → n ∈ dict_keys batch) ∧
  (quiet w → reports_no_change (new_events w w') →
   updated (base m') = updated (base m)).
Proof.
  destruct m as [b|mp|mn]; simpl.
  - unfold local_on_experiences.
    destruct (local_loop batch b []) as [[b' evs] r'] eqn:H.
    intros [= <- <- <-]. simpl.
    rewrite (new_events_app w (log evs w) evs) by done.
    pose proof (local_loop_updates _ _ _ _ _ _ H) as (delta' & Hd' & Hup).
    apply local_loop_spec in H as (Hv & Hd & Hu & _ & delta & Hdelta & Hq).
    simpl in *. subst. auto.
  - destruct (mp_on_experiences mp w batch) as [[mp' w1] r1] eqn:H.
    intros [= <- <- <-]. simpl.
    apply mp_on_experiences_spec in H
      as (Hd & Hu & Hv & delta & Htr & Hup & Hq).
    rewrite (new_events_app _ _ _ Htr). auto.
  - destruct (mn_on_experiences mn w batch) as [[mn' w1] r1] eqn:H.
    intros [= <- <- <-]. simpl.
    apply mn_on_experiences_spec in H
      as (Hd & Hu & Hv & delta & Htr & Hup & _ & Hq & _).
    rewrite (new_events_app _ _ _ Htr). auto.
Qed.

Lemma reports_no_change_nil_batch (evs : list (@event ExperienceSet PolicyState)) :
  (∀ n c, EvUpdate n c ∈ evs → n ∈ @dict_keys ExperienceSet []) →
  reports_no_change evs.
Proof. intros H n Hn. by apply H, elem_of_nil in Hn. Qed.

Lemma on_experiences_version_cases m w batch :
  version (base (on_experiences m w batch).1.1) = version (base m) ∨
  version (base (on_experiences m w batch).1.1) = (version (base m) + 1)%Z.
Proof.
  destruct (on_experiences m w batch) as [[m' w'] r] eqn:H.
  apply on_experiences_spec in H as (_ & _ & Hv & _). simpl.
  unfold version. rewrite Hv.
  destruct (has_version_test m && is_Ok r); [|auto].
  destruct (decide _); auto.
Qed.

Lemma step_version c m w :
  version (base (step c m w).1.1) = version (base m) ∨
  version (base (step c m w).1.1) = (version (base m) + 1)%Z.
Proof.
  destruct c as [batch| | |]; simpl.
  - pose proof (on_experiences_version_cases m w batch) as H.
    by destruct (on_experiences m w batch) as [[m' w'] r].
  - by left.
  - left. unfold reset_update_status. by rewrite base_with_base.
  - destruct (exit m w). by left.
Qed.

Lemma run_version_mono cs : ∀ m w,
  (version (base m) ≤ version (base (run cs m w).1))%Z.
Proof.
  induction cs as [|c cs IH]; intros m w; simpl; [lia|].
  pose proof (step_version c m w) as Hs.
  destruct (step c m w) as [[m' w'] returned]. simpl in Hs.
  destruct returned; [specialize (IH m' w')|simpl]; lia.
Qed.

(** C7: the version is 0 after construction; a call of [on_experiences],
    [get_state], [reset_update_status] or [exit] leaves it as it is or adds
    exactly 1; no sequence of such calls ever decreases it. *)
Theorem version_monotone (a : @ctor_args ExperienceSet PolicyState) w0 w m cs :
  construct a w0 = (w, Ok m) →
  version (base m) = 0%Z ∧
  (∀ c m1 w1,
     version (base (step c m1 w1).1.1) = version (base m1) ∨
     version (base (step c m1 w1).1.1) = (version (base m1) + 1)%Z) ∧
  (∀ cs1 m1 w1, (version (base m1) ≤ version (base (run cs1 m1 w1).1))%Z) ∧
  (0 ≤ version (base (run cs m w).1))%Z.
Proof.
  intros Hc. apply construct_Ok_base, abs_init_Ok in Hc as (_ & _ & Hv).
  split; [done|]. split; [apply step_version|].
  split; [intros; apply run_version_mono|].
  pose proof (run_version_mono cs m w) as H. unfold version in *. lia.
Qed.

(** C3, as the code has it: on the empty batch the local and the multi-node
    manager return; whenever a manager returns, with no reply pending in
    its pipes, the updated set is as before, the local manager's version is
    as before, and a distributed manager's version is as before when the
    updated set is empty and one more when it is not. *)
Theorem empty_batch_spec m w m' w' r :
  on_experiences m w [] = (m', w', r) →
  no_pending w →
  match m with MultiProcess _ => True | _ => r = Ok () end ∧
  (r = Ok () →
   updated (base m') = updated (base m) ∧
   version (base m') =
     if has_version_test m then bumped (base m) else version (base m)).
Proof.
  intros H Hnp. split.
  - destruct m as [b|mp|mn]; simpl in H; [|done|].
    + by injection H as _ _ <-.
    + unfold mn_on_experiences in H. simpl in H.
      destruct (merge_replies [] (mn_base mn)) as [b r2] eqn:Hm.
      simpl in Hm. injection Hm as <- <-. by injection H as _ _ <-.
  - intros ->. apply on_experiences_spec in H as (_ & _ & Hv & Hup & Hq).
    specialize (Hq (no_pending_quiet _ Hnp) (reports_no_change_nil_batch _ Hup)).
    split; [done|]. unfold version, bumped. rewrite Hv, Hq.
    by destruct (has_version_test m).
Qed.

(** C4, as the code has it: when every update of the call reports no change
    (and no reply is pending in the pipes), the call adds no name to the
    updated set.  The version is incremented exactly when a distributed
    manager returns with a non-empty updated set, whether the set grew in
    this call or was non-empty before it; the local manager never
    increments. *)
Theorem no_change_spec m w batch m' w' r :
  on_experiences m w batch = (m', w', r) →
  no_pending w →
  reports_no_change (new_events w w') →
  updated (base m') = updated (base m) ∧
  version (base m') =
    (if has_version_test m && is_Ok r then bumped (base m)
     else version (base m)) ∧
  (version (base m') ≠ version (base m) → updated (base m) ≠ ∅).
Proof.
  intros H Hnp Hno. apply on_experiences_spec in H as (_ & _ & Hv & _ & Hq).
  specialize (Hq (no_pending_quiet _ Hnp) Hno).
  split; [done|]. unfold version, bumped. rewrite Hv, Hq. split; [done|].
  destruct (has_version_test m && is_Ok r); [|done].
  by destruct (decide (updated (base m) = ∅)).
Qed.

Lemma mn_partition_unknown batch (p2t : list (string * string)) k : ∀ acc,
  k ∈ @dict_keys ExperienceSet batch → dict_get k p2t = None →
  ∃ k', mn_partition batch p2t acc = Raise (KeyError k') ∧
        k' ∈ dict_keys batch ∧ dict_get k' p2t = None.
Proof.
  unfold dict_keys.
  induction batch as [|[n exp] rest IH]; intros acc Hk Hnone; simpl.
  - by apply elem_of_nil in Hk.
  - destruct (dict_get n p2t) as [t|] eqn:Hn.
    + apply elem_of_cons in Hk as [Hk|Hk];
        [simpl in Hk; subst k; rewrite Hn in Hnone; discriminate Hnone|].
      destruct (defaultdict_get [] t acc) as [body by_dest].
      destruct (IH (dict_set t (dict_set n exp body) by_dest) Hk Hnone)
        as (k' & -> & Hk' & Hd).
      exists k'. split; [done|]. split; [by apply list_elem_of_further|done].
    + exists n. split; [done|]. split; [apply list_elem_of_here|done].
Qed.

(** C5, as the code has it: a key of the batch that the local manager does
    not manage, or that the multi-node manager's assignment table does not
    contain, makes [on_experiences] raise the [KeyError] of the failed
    dictionary subscript; the multi-node manager has then sent nothing and
    changed nothing. *)
Theorem unknown_key_raises_KeyError b
    (mn : @MultiNodePolicyManager ExperienceSet PolicyState) w batch k :
  k ∈ dict_keys batch →
  (k ∉ dom (policy_dict b) →
   ∃ k', (on_experiences (Local b) w batch).2 = Raise (KeyError k') ∧
         k' ∈ dict_keys batch ∧ k' ∉ dom (policy_dict b)) ∧
  (dict_get k (mn_policy2trainer mn) = None →
   ∃ k', on_experiences (MultiNode mn) w batch
           = (MultiNode mn, w, Raise (KeyError k')) ∧
         k' ∈ dict_keys batch ∧ dict_get k' (mn_policy2trainer mn) = None).
Proof.
  intros Hk. split.
  - intros Hnot. simpl. unfold local_on_experiences.
    destruct (local_loop_outcome batch b []) as [[HF _]|(k' & Hk' & Hd & Hr)].
    + rewrite Forall_forall in HF. by destruct (Hnot (HF k Hk)).
    + exists k'. destruct (local_loop batch b []) as [[b' evs] r].
      simpl in *. by subst.
  - intros Hnone. simpl. unfold mn_on_experiences.
    destruct (mn_partition_unknown batch (mn_policy2trainer mn) k [] Hk Hnone)
      as (k' & -> & Hk' & Hd).
    by exists k'.
Qed.

(** Where the local manager has no version test, the multi-node manager has
    one: a call that returns after some update reported a change has
    incremented the version by exactly 1. *)
Lemma mn_change_increments (mn : @MultiNodePolicyManager ExperienceSet PolicyState)
    w batch mn' w' :
  mn_on_experiences mn w batch = (mn', w', Ok ()) →
  reports_change (new_events w w') →
  _version (mn_base mn') = (_version (mn_base mn) + 1)%Z.
Proof.
  intros H Hch.
  apply mn_on_experiences_spec in H
    as (_ & _ & Hv & delta & Htr & _ & _ & _ & Hne).
  rewrite (new_events_app _ _ _ Htr) in Hch. specialize (Hne eq_refl Hch).
  simpl in Hv. by rewrite decide_False in Hv.
Qed.

(** The multi-node manager partitions as the specification says: a [TRAIN]
    command goes only to a trainer with at least one entry in the batch,
    and carries only entries of the batch for policies assigned to it. *)
Lemma mn_train_only_where_needed
    (mn : @MultiNodePolicyManager ExperienceSet PolicyState) w batch mn' w' r :
  mn_on_experiences mn w batch = (mn', w', r) →
  ∀ t msg, EvSend t msg ∈ new_events w w' →
    ∃ exps, msg = Train exps ∧ exps ≠ [] ∧
      ∀ n, n ∈ dict_keys exps →
        n ∈ dict_keys batch ∧ dict_get n (mn_policy2trainer mn) = Some t.
Proof.
  intros H.
  apply mn_on_experiences_spec in H
    as (_ & _ & _ & delta & Htr & _ & Hsend & _).
  by rewrite (new_events_app _ _ _ Htr).
Qed.

End Properties.

(** * The scenario: evaluations, counterexamples and instances *)

Import Scenario.

Ltac no_event H :=
  repeat (apply elem_of_cons in H as [H|H]; [discriminate H|]);
  by apply elem_of_nil in H.

(** The explicit managers of the scenario are the constructed ones. *)
Lemma local_fresh_constructed :
  construct (LocalArgs policies) empty_world = (empty_world, Ok local_fresh).
Proof. vm_compute. reflexivity. Qed.

Lemma mp_fresh_constructed :
  construct (MultiProcessArgs policies policy2trainer create_policy_func_dict)
            empty_world = (mp_world, Ok mp_fresh).
Proof. vm_compute. reflexivity. Qed.

Lemma mn_fresh_constructed :
  construct (MultiNodeArgs policies policy2trainer "group") cluster
  = (mn_world, Ok mn_fresh).
Proof. vm_compute. reflexivity. Qed.

(** C1 at the failing input: the local manager, its updated set cleared, is
    given experiences for [A]; [A]'s update reports a change and [A] enters
    the updated set, the call returns, and the version is what it was. *)
Theorem local_change_without_increment :
  (on_experiences (reset_update_status local_fresh) empty_world [("A", 1)]).2
    = Ok () ∧
  reports_change
    (new_events empty_world
       (on_experiences (reset_update_status local_fresh) empty_world
                       [("A", 1)]).1.2) ∧
  updated (base (on_experiences (reset_update_status local_fresh) empty_world
                                [("A", 1)]).1.1) = {["A"]} ∧
  version (base (on_experiences (reset_update_status local_fresh) empty_world
                                [("A", 1)]).1.1)
    = version (base (reset_update_status local_fresh)).
Proof.
  split; [vm_compute; reflexivity|]. split.
  - exists "A". vm_compute. apply list_elem_of_here.
  - split; vm_compute; reflexivity.
Qed.

(** C2 at the failing inputs.  With the batch [{A, C}] the multi-process
    manager raises [KeyError] for [B], owned by [T1] and absent from the
    batch, before anything is sent.  With the batch [{A, B}], in which [T2]
    has no entry, [T1] is sent its command and the call then raises
    [KeyError] for [C] without reading [T1]'s reply. *)
Theorem mp_partial_batch_raises :
  (on_experiences mp_fresh mp_world [("A", 1); ("C", 1)]).2
    = Raise (KeyError "B") ∧
  train_targets
    (new_events mp_world
       (on_experiences mp_fresh mp_world [("A", 1); ("C", 1)]).1.2) = [] ∧
  (on_experiences mp_fresh mp_world [("A", 1); ("B", 1)]).2
    = Raise (KeyError "C") ∧
  train_targets
    (new_events mp_world
       (on_experiences mp_fresh mp_world [("A", 1); ("B", 1)]).1.2) = ["T1"] ∧
  ¬ no_pending (on_experiences mp_fresh mp_world [("A", 1); ("B", 1)]).1.2.
Proof.
  repeat split; try (vm_compute; reflexivity).
  intros H. vm_compute in H. apply Forall_cons in H as [H _]. discriminate H.
Qed.

(** C3 fails on the multi-node manager right after construction: the empty
    batch returns and the version goes from 0 to 1. *)
Lemma empty_batch_increments_version :
  construct (MultiNodeArgs policies policy2trainer "group") cluster
    = (mn_world, Ok mn_fresh) ∧
  (on_experiences mn_fresh mn_world []).2 = Ok () ∧
  version (base mn_fresh) = 0%Z ∧
  version (base (on_experiences mn_fresh mn_world []).1.1) = 1%Z ∧
  ¬ (version (base (on_experiences mn_fresh mn_world []).1.1)
       = version (base mn_fresh) ∧
     updated (base (on_experiences mn_fresh mn_world []).1.1)
       = updated (base mn_fresh)).
Proof.
  split; [apply mn_fresh_constructed|].
  repeat split; try (vm_compute; reflexivity).
  intros [H _]. vm_compute in H. discriminate H.
Qed.

(** C4 fails on the multi-node manager right after construction: [C]'s
    update reports no change, nothing else is updated, and the version goes
    from 0 to 1 because the updated set is non-empty from construction. *)
Lemma no_change_increments_version :
  (on_experiences mn_fresh mn_world [("C", 1)]).2 = Ok () ∧
  reports_no_change
    (new_events mn_world (on_experiences mn_fresh mn_world [("C", 1)]).1.2) ∧
  updated (base (on_experiences mn_fresh mn_world [("C", 1)]).1.1)
    = updated (base mn_fresh) ∧
  version (base (on_experiences mn_fresh mn_world [("C", 1)]).1.1)
    ≠ version (base mn_fresh).
Proof.
  split; [vm_compute; reflexivity|]. split.
  { intros n H. vm_compute in H. no_event H. }
  split; [vm_compute; reflexivity|].
  intros H. vm_compute in H. discriminate H.
Qed.

(** C5 fails on the local manager: the unmanaged key [Z] raises [KeyError],
    not [ConfigurationError]. *)
Lemma unknown_key_not_ConfigurationError :
  (on_experiences local_fresh empty_world [("Z", 1)]).2 = Raise (KeyError "Z") ∧
  ¬ ∃ msg, (on_experiences local_fresh empty_world [("Z", 1)]).2
             = Raise (ConfigurationError msg).
Proof.
  split; [vm_compute; reflexivity|].
  intros [msg H]. vm_compute in H. discriminate H.
Qed.

(** C9 fails on every constructor: a policy that is not an [AbsCorePolicy]
    raises [ValueError], not [ConfigurationError]. *)
Lemma not_core_not_ConfigurationError :
  construct (MultiProcessArgs [learner "A"; null_policy "N"]
               [("A", "T1"); ("N", "T1")] create_policy_func_dict) empty_world
    = (empty_world, Raise (ValueError not_core_msg)) ∧
  ¬ ∃ msg, (construct (MultiProcessArgs [learner "A"; null_policy "N"]
              [("A", "T1"); ("N", "T1")] create_policy_func_dict)
              empty_world).2 = Raise (ConfigurationError msg).
Proof.
  split; [vm_compute; reflexivity|].
  intros [msg H]. vm_compute in H. discriminate H.
Qed.

(** ** Instances of the theorems with hypotheses *)

Lemma updated_after_construction_witness :
  construct (MultiProcessArgs policies policy2trainer create_policy_func_dict)
            empty_world = (mp_world, Ok mp_fresh) ∧
  updated (base mp_fresh) = list_to_set (name <$> policies).
Proof.
  split; [vm_compute; reflexivity|].
  apply (updated_after_construction
           (MultiProcessArgs policies policy2trainer create_policy_func_dict)
           empty_world mp_world mp_fresh).
  vm_compute. reflexivity.
Defined.

Lemma construct_not_core_witness :
  null_policy "N" ∈ [learner "A"; null_policy "N"] ∧
  is_core (null_policy "N") = false ∧
  construct (MultiNodeArgs [learner "A"; null_policy "N"] policy2trainer "group")
            cluster = (cluster, Raise (ValueError not_core_msg)).
Proof.
  split; [apply list_elem_of_further, list_elem_of_here|].
  split; [reflexivity|].
  apply (construct_not_core
           (MultiNodeArgs [learner "A"; null_policy "N"] policy2trainer "group")
           cluster (null_policy "N")).
  - apply list_elem_of_further, list_elem_of_here.
  - reflexivity.
Defined.

Lemma duplicate_name_later_wins_witness :
  name (learner "A") = name (idler "A") ∧
  ∃ b, abs_init [learner "A"; idler "B"; idler "A"; idler "C"] = Ok b ∧
       policy_dict b !! "A" = Some (idler "A").
Proof.
  split; [reflexivity|].
  apply (duplicate_name_later_wins
           (LocalArgs [learner "A"; idler "B"; idler "A"; idler "C"])
           empty_world [] (learner "A") [idler "B"] (idler "A") [idler "C"]).
  - reflexivity.
  - repeat constructor.
  - reflexivity.
  - simpl. intros H. no_event H.
Defined.

Lemma version_monotone_witness :
  construct (MultiNodeArgs policies policy2trainer "group") cluster
    = (mn_world, Ok mn_fresh) ∧
  (0 ≤ version (base (run [CallOnExperiences [("A", 1%nat)]; CallGetState;
                           CallResetUpdateStatus; CallExit]
                          mn_fresh mn_world).1))%Z.
Proof.
  split; [vm_compute; reflexivity|].
  apply (version_monotone (MultiNodeArgs policies policy2trainer "group")
                          cluster mn_world mn_fresh).
  vm_compute. reflexivity.
Defined.

Lemma empty_batch_spec_witness :
  no_pending mn_world ∧
  updated (base (on_experiences mn_fresh mn_world []).1.1)
    = updated (base mn_fresh).
Proof.
  assert (Hnp : no_pending mn_world) by (vm_compute; constructor).
  split; [exact Hnp|].
  destruct (on_experiences mn_fresh mn_world []) as [[m' w'] r] eqn:H.
  destruct (empty_batch_spec mn_fresh mn_world m' w' r H Hnp) as [Hr Hu].
  simpl in Hr. exact (proj1 (Hu Hr)).
Defined.

Lemma no_change_spec_witness :
  no_pending mn_world ∧
  reports_no_change
    (new_events mn_world
       (on_experiences (reset_update_status mn_fresh) mn_world
                       [("B", 1); ("C", 1)]).1.2) ∧
  updated (base (on_experiences (reset_update_status mn_fresh) mn_world
                                [("B", 1); ("C", 1)]).1.1) = ∅.
Proof.
  assert (Hnp : no_pending mn_world) by (vm_compute; constructor).
  assert (Hno : reports_no_change
    (new_events mn_world
       (on_experiences (reset_update_status mn_fresh) mn_world
                       [("B", 1); ("C", 1)]).1.2)).
  { intros n H. vm_compute in H. no_event H. }
  split; [exact Hnp|]. split; [exact Hno|].
  destruct (on_experiences (reset_update_status mn_fresh) mn_world
                           [("B", 1); ("C", 1)]) as [[m' w'] r] eqn:H.
  exact (proj1 (no_change_spec (reset_update_status mn_fresh) mn_world
                  [("B", 1); ("C", 1)] m' w' r H Hnp Hno)).
Defined.

Lemma unknown_key_raises_KeyError_witness :
  "Z" ∈ dict_keys [("A", 1); ("Z", 1)] ∧
  ("Z" ∉ dom (policy_dict fresh_base)) ∧
  ∃ k', (on_experiences local_fresh empty_world [("A", 1); ("Z", 1)]).2
          = Raise (KeyError k') ∧
        k' ∈ dict_keys [("A", 1); ("Z", 1)] ∧ k' ∉ dom (policy_dict fresh_base).
Proof.
  assert (Hk : "Z" ∈ dict_keys [("A", 1); ("Z", 1)])
    by apply list_elem_of_further, list_elem_of_here.
  assert (Hd : "Z" ∉ dom (policy_dict fresh_base)).
  { intros H. apply elem_of_dom in H as [p Hp]. vm_compute in Hp. discriminate Hp. }
  split; [exact Hk|]. split; [exact Hd|].
  exact (proj1 (unknown_key_raises_KeyError fresh_base
                  (mkMN fresh_base policy2trainer [] "group") empty_world
                  [("A", 1); ("Z", 1)] "Z" Hk) Hd).
Defined.

(** * Further properties of the managers *)

Section Snapshot.
Context {ExperienceSet PolicyState : Type}.
Implicit Types (b : @AbsPolicyManager ExperienceSet PolicyState).
Implicit Types (m : @Manager ExperienceSet PolicyState).
Implicit Types (w : @World ExperienceSet PolicyState).
Implicit Types (batch : list (string * ExperienceSet)).

(** ** Every name in [updated] is a managed policy *)

Lemma local_loop_updated_managed batch : ∀ b evs b' evs' r,
  local_loop batch b evs = (b', evs', r) →
  updated b ⊆ dom (policy_dict b) → updated b' ⊆ dom (policy_dict b').
Proof.
  induction batch as [|[n exp] rest IH]; intros b evs b' evs' r; simpl.
  - by intros [= <- <- <-].
  - destruct (policy_dict b !! n) as [p|] eqn:Hp; [|by intros [= <- <- <-]].
    destruct (is_core p); [|by apply IH].
    destruct (policy_on_experiences p exp) as [p' changed].
    intros H Hinv. apply IH in H; [done|].
    apply elem_of_dom_2 in Hp.
    destruct changed; simpl; rewrite dom_insert_L; set_solver.
Qed.

Lemma merge_reply_updated_managed (rep : @reply PolicyState) : ∀ b b' r,
  merge_reply rep b = (b', r) →
  updated b ⊆ dom (policy_dict b) → updated b' ⊆ dom (policy_dict b').
Proof.
  induction rep as [|[n st] rest IH]; intros b b' r; simpl.
  - by intros [= <- <-].
  - destruct (policy_dict b !! n) as [p|] eqn:Hp; [|by intros [= <- <-]].
    intros H Hinv. apply IH in H; [done|]. simpl.
    rewrite dom_insert_L. set_solver.
Qed.

Lemma merge_replies_updated_managed (reps : list (@reply PolicyState)) :
  ∀ b b' r,
  merge_replies reps b = (b', r) →
  updated b ⊆ dom (policy_dict b) → updated b' ⊆ dom (policy_dict b').
Proof.
  induction reps as [|rep rest IH]; intros b b' r; simpl.
  - by intros [= <- <-].
  - destruct (merge_reply rep b) as [b1 r1] eqn:H1. intros H Hinv.
    apply merge_reply_updated_managed in H1; [|done].
    destruct r1 as [[]| |]; [by apply IH in H|by injection H as <- _..].
Qed.

Lemma mp_recv_all_updated_managed (conns : list nat) : ∀ b w b' w' r,
  mp_recv_all conns b w = (b', w', r) →
  updated b ⊆ dom (policy_dict b) → updated b' ⊆ dom (policy_dict b').
Proof.
  induction conns as [|conn rest IH]; intros b w b' w' r; simpl.
  - by intros [= <- <- <-].
  - destruct (conn_recv conn w) as [w1 [rep|e|]];
      [|by intros [= <- <- <-]..].
    destruct (merge_reply rep b) as [b1 r1] eqn:H1. intros H Hinv.
    apply merge_reply_updated_managed in H1; [|done].
    destruct r1 as [[]| |]; [by apply IH in H|by injection H as <- _ _..].
Qed.

Lemma on_experiences_updated_managed m w batch :
  updated (base m) ⊆ dom (policy_dict (base m)) →
  updated (base (on_experiences m w batch).1.1)
    ⊆ dom (policy_dict (base (on_experiences m w batch).1.1)).
Proof.
  intros Hinv. destruct m as [b|mp|mn]; simpl in *.
  - unfold local_on_experiences.
    destruct (local_loop batch b []) as [[b' evs] r] eqn:H. simpl.
    by apply local_loop_updated_managed in H.
  - unfold mp_on_experiences.
    destruct (mp_send_all _ _ _ _) as [[t2p w1] [[]|e|]]; simpl; [|done..].
    destruct (mp_recv_all _ _ _) as [[b w2] r2] eqn:H.
    apply mp_recv_all_updated_managed in H; [|done].
    destruct (bump_version_spec b) as (Hd & Hu & _).
    destruct r2 as [[]|e|]; simpl; [by rewrite Hd, Hu|done..].
  - unfold mn_on_experiences.
    destruct (mn_partition _ _ _) as [dests|e|]; simpl; [|done..].
    destruct (scatter dests w [] true) as [w1 [reps|e|]]; simpl; [|done..].
    destruct (merge_replies reps (mn_base mn)) as [b r2] eqn:H.
    apply merge_replies_updated_managed in H; [|done].
    destruct (bump_version_spec b) as (Hd & Hu & _).
    destruct r2 as [[]|e|]; simpl; [by rewrite Hd, Hu|done..].
Qed.

Lemma run_updated_managed cs : ∀ m w,
  updated (base m) ⊆ dom (policy_dict (base m)) →
  updated (base (run cs m w).1) ⊆ dom (policy_dict (base (run cs m w).1)).
Proof.
  induction cs as [|c cs IH]; intros m w Hinv; simpl; [done|].
  assert (Hstep : updated (base (step c m w).1.1)
                  ⊆ dom (policy_dict (base (step c m w).1.1))).
  { destruct c as [batch| | |]; simpl.
    - pose proof (on_experiences_updated_managed m w batch Hinv) as H.
      by destruct (on_experiences m w batch) as [[m' w'] r].
    - done.
    - unfold reset_update_status. rewrite base_with_base. simpl. set_solver.
    - by destruct (exit m w). }
  destruct (step c m w) as [[m' w'] returned]. simpl in Hstep.
  destruct returned; [by apply IH|done].
Qed.

Lemma collect_states_lookup (d : gmap string (@Policy ExperienceSet PolicyState))
    (names : list string) : ∀ acc res,
  collect_states d names acc = Ok res →
  ∀ n, res !! n = if decide (n ∈ names) then policy_get_state <$> d !! n
                  else acc !! n.
Proof.
  induction names as [|k names IH]; intros acc res; simpl.
  - intros [= <-] n. by destruct (decide (n ∈ [])) as [?%elem_of_nil|].
  - destruct (d !! k) as [p|] eqn:Hk; [|done].
    intros H n. rewrite (IH _ _ H n).
    destruct (decide (n ∈ names)) as [Hin|Hnin].
    + rewrite decide_True; [done|by apply list_elem_of_further].
    + destruct (decide (n = k)) as [->|Hne].
      * rewrite decide_True by apply list_elem_of_here.
        by rewrite lookup_insert_eq, Hk.
      * rewrite decide_False; [by rewrite lookup_insert_ne|].
        by intros [?|?]%elem_of_cons.
Qed.

(** Whatever calls were made on a constructed manager, [get_state] returns:
    the names in [updated] are always managed policies.  The mapping it
    returns has exactly the names in [updated], each with the current state
    of the canonical policy. *)
Theorem get_state_of_reachable (a : @ctor_args ExperienceSet PolicyState)
    w0 w m cs :
  construct a w0 = (w, Ok m) →
  ∃ d, get_state (run cs m w).1 = Ok d ∧
       dom d = updated (base (run cs m w).1) ∧
       ∀ n, d !! n =
            if decide (n ∈ updated (base (run cs m w).1))
            then policy_get_state <$> policy_dict (base (run cs m w).1) !! n
            else None.
Proof.
  intros Hc. apply construct_Ok_base, abs_init_Ok in Hc as (Hd & Hu & _).
  assert (Hinv : updated (base m) ⊆ dom (policy_dict (base m))).
  { by rewrite Hu, Hd, make_policy_dict_dom. }
  pose proof (run_updated_managed cs m w Hinv) as Hrun.
  set (m' := (run cs m w).1) in *.
  unfold get_state, abs_get_state.
  destruct (collect_states_Ok (policy_dict (base m'))
              (elements (updated (base m'))) ∅) as (res & Hres & Hdom).
  { apply Forall_forall. intros n Hn%elem_of_elements. by apply Hrun. }
  exists res. split; [done|]. split.
  - rewrite Hdom, list_to_set_elements_L, dom_empty_L. set_solver.
  - intros n. rewrite (collect_states_lookup _ _ _ _ Hres n).
    destruct (decide (n ∈ elements (updated (base m')))) as [Hin|Hnin].
    + rewrite decide_True; [done|by apply elem_of_elements].
    + rewrite decide_False; [done|]. by rewrite <- elem_of_elements.
Qed.

End Snapshot.

Section LocalEffect.
Context {ExperienceSet PolicyState : Type}.
Implicit Types (b : @AbsPolicyManager ExperienceSet PolicyState).
Implicit Types (batch : list (string * ExperienceSet)).

Lemma local_loop_effect batch : ∀ b evs b' evs',
  NoDup (dict_keys batch) →
  local_loop batch b evs = (b', evs', Ok ()) →
  (∀ n, n ∉ dict_keys batch → policy_dict b' !! n = policy_dict b !! n) ∧
  (∀ n exp, (n, exp) ∈ batch →
     ∃ p, policy_dict b !! n = Some p ∧
          policy_dict b' !! n = Some (trained p exp).1) ∧
  (∀ n, n ∈ updated b' ↔
        n ∈ updated b ∨
        ∃ exp p, (n, exp) ∈ batch ∧ policy_dict b !! n = Some p ∧
                 (trained p exp).2 = true).
Proof.
  unfold dict_keys.
  induction batch as [|[k exp] rest IH]; intros b evs b' evs' Hnd; simpl.
  - intros [= <- <-]. split; [done|]. split; [by intros ? ? ?%elem_of_nil|].
    intros n. split; [auto|]. intros [|(? & ? & ?%elem_of_nil & _)]; done.
  - apply NoDup_cons in Hnd as [Hk Hnd].
    destruct (policy_dict b !! k) as [p|] eqn:Hp; [|done].
    assert (Hrest : ∀ n e, (n, e) ∈ rest → n ≠ k).
    { intros n e Hin ->. apply Hk. apply list_elem_of_fmap. by exists (k, e). }
    assert (Hgoal : ∀ b1,
      (∀ n, n ≠ k → policy_dict b1 !! n = policy_dict b !! n) →
      policy_dict b1 !! k = Some (trained p exp).1 →
      (∀ n, n ∈ updated b1 ↔
            n ∈ updated b ∨ (n = k ∧ (trained p exp).2 = true)) →
      local_loop rest b1 (evs ++
        (if is_core p then [EvUpdate k (trained p exp).2] else []))
        = (b', evs', Ok ()) →
      (∀ n, n ∉ k :: rest.*1 → policy_dict b' !! n = policy_dict b !! n) ∧
      (∀ n e, (n, e) ∈ (k, exp) :: rest →
         ∃ q, policy_dict b !! n = Some q ∧
              policy_dict b' !! n = Some (trained q e).1) ∧
      (∀ n, n ∈ updated b' ↔
            n ∈ updated b ∨
            ∃ e q, (n, e) ∈ (k, exp) :: rest ∧ policy_dict b !! n = Some q ∧
                   (trained q e).2 = true)).
    { intros b1 Hframe Hat Hupd H.
      apply IH in H as (Hf & He & Hu); [|done].
      split; [|split].
      - intros n [Hne Hn]%not_elem_of_cons. rewrite Hf by done. by apply Hframe.
      - intros n e [[= -> ->]|Hin]%elem_of_cons.
        + exists p. split; [done|]. by rewrite Hf.
        + destruct (He n e Hin) as (q & Hq & Hq').
          exists q. split; [|done]. rewrite <- Hframe; [done|by eapply Hrest].
      - intros n. rewrite Hu, Hupd. split.
        + intros [[?|[-> Ht]]|(e & q & Hin & Hq & Ht)]; [by left| |].
          * right. exists exp, p. split; [apply list_elem_of_here|done].
          * right. exists e, q. split; [by apply list_elem_of_further|].
            split; [|done]. rewrite <- Hframe; [done|by eapply Hrest].
        + intros [?|(e & q & [[= -> ->]|Hin]%elem_of_cons & Hq & Ht)].
          * by left; left.
          * left; right. split; [done|]. congruence.
          * right. exists e, q. split; [done|]. split; [|done].
            rewrite Hframe; [done|by eapply Hrest]. }
    unfold trained in Hgoal. destruct (is_core p).
    + destruct (policy_on_experiences p exp) as [p' changed]. simpl in Hgoal.
      apply Hgoal.
      * intros n Hne. destruct changed; simpl; by rewrite lookup_insert_ne.
      * destruct changed; simpl; by rewrite lookup_insert_eq.
      * intros n. destruct changed; simpl; [set_solver|]. naive_solver.
    + simpl in Hgoal. rewrite app_nil_r in Hgoal. apply Hgoal; [done|done|].
      naive_solver.
Qed.

(** The local manager on a batch (a dictionary: its keys are distinct) all
    of whose keys are managed: the call returns; every policy named in the
    batch is replaced by what its own update makes of it, every other policy
    is untouched; [updated] gains exactly the names whose update returned
    true. *)
Theorem local_on_experiences_effect b
    (w : @World ExperienceSet PolicyState) batch :
  NoDup (dict_keys batch) →
  Forall (λ k, k ∈ dom (policy_dict b)) (dict_keys batch) →
  (local_on_experiences b w batch).2 = Ok () ∧
  (∀ n, n ∉ dict_keys batch →
     policy_dict (local_on_experiences b w batch).1.1 !! n
       = policy_dict b !! n) ∧
  (∀ n exp, (n, exp) ∈ batch →
     ∃ p, policy_dict b !! n = Some p ∧
          policy_dict (local_on_experiences b w batch).1.1 !! n
            = Some (trained p exp).1) ∧
  (∀ n, n ∈ updated (local_on_experiences b w batch).1.1 ↔
        n ∈ updated b ∨
        ∃ exp p, (n, exp) ∈ batch ∧ policy_dict b !! n = Some p ∧
                 (trained p exp).2 = true).
Proof.
  intros Hnd Hall. unfold local_on_experiences.
  destruct (local_loop_outcome batch b []) as [[_ Hr]|(k & Hk & Hd & _)].
  2:{ rewrite Forall_forall in Hall. by destruct (Hd (Hall k Hk)). }
  destruct (local_loop batch b []) as [[b' evs] r] eqn:H. simpl in *. subst r.
  split; [done|]. by apply (local_loop_effect batch b [] b' evs).
Qed.

End LocalEffect.

(** ** Instances *)

Lemma get_state_of_reachable_witness :
  construct (MultiNodeArgs policies policy2trainer "group") cluster
    = (mn_world, Ok mn_fresh) ∧
  ∃ d, get_state (run [CallOnExperiences [("A", 1)]; CallResetUpdateStatus;
                       CallOnExperiences [("A", 2); ("C", 1)]]
                      mn_fresh mn_world).1 = Ok d ∧
       dom d = updated (base (run [CallOnExperiences [("A", 1)];
                                   CallResetUpdateStatus;
                                   CallOnExperiences [("A", 2); ("C", 1)]]
                                  mn_fresh mn_world).1).
Proof.
  split; [vm_compute; reflexivity|].
  destruct (get_state_of_reachable
              (MultiNodeArgs policies policy2trainer "group") cluster mn_world
              mn_fresh
              [CallOnExperiences [("A", 1)]; CallResetUpdateStatus;
               CallOnExperiences [("A", 2); ("C", 1)]])
    as (d & Hd & Hdom & _).
  - vm_compute. reflexivity.
  - exists d. split; [exact Hd|exact Hdom].
Defined.

Lemma local_on_experiences_effect_witness :
  NoDup (dict_keys [("A", 1); ("C", 2)]) ∧
  Forall (λ k, k ∈ dom (policy_dict fresh_base)) (dict_keys [("A", 1); ("C", 2)]) ∧
  (local_on_experiences fresh_base empty_world [("A", 1); ("C", 2)]).2 = Ok ().
Proof.
  assert (Hnd : NoDup (dict_keys [("A", 1); ("C", 2)])).
  { apply (bool_decide_unpack _). vm_compute. reflexivity. }
  assert (Hall : Forall (λ k, k ∈ dom (policy_dict fresh_base))
                        (dict_keys [("A", 1); ("C", 2)])).
  { apply (bool_decide_unpack _). vm_compute. reflexivity. }
  split; [exact Hnd|]. split; [exact Hall|].
  exact (proj1 (local_on_experiences_effect fresh_base empty_world
                  [("A", 1); ("C", 2)] Hnd Hall)).
Defined.
